(** * The caching service worker of the theme (assets/service-worker.js)

    A shallow embedding of the worker's four listeners (install, activate,
    fetch, message), its two retrieval strategies (cacheFirst, networkFirst)
    and its eviction routine (limitCacheSize), followed by the properties the
    specification states about them.

    Modelling conventions.
    - The browser's CacheStorage is a list of named caches in creation order;
      a Cache is a list of (request, response) entries in insertion order,
      oldest first.  A handle returned by [caches.open] is the cache's name:
      every operation through a handle acts on the shared store.
    - Awaited operations run in program order, and the trace lists the
      store operations in the order in which they take effect.  The source
      starts [cache.put] and [limitCacheSize] without [await].  In
      [cacheFirst] nothing follows the put.  In [networkFirst] the put is
      followed by [limitCacheSize], and nothing orders the landing of the
      put and the listing of the keys: [networkFirst] is the run in which
      the put lands first, [networkFirst_put_last] the run in which
      [limitCacheSize] has listed and deleted keys before the put lands.
      The one place where the source inspects a promise object itself (the
      operand of [||] in [cacheFirst]) keeps the promise as a value.
    - [fetch] either resolves with a response or rejects; a rejection is what
      the [try]/[catch] blocks of the strategies catch.
    - Every store, network and lifecycle call is recorded in a trace, so that
      "no read", "no write" and "no network call" are statements about the
      trace.  [console.log] is not modelled.
    - The store is the one the worker relies on: an entry is keyed by its
      request (method and URL) and a put succeeds.  The conditions under
      which the platform refuses a put are outside the model. *)

From Stdlib Require Import List String Ascii Bool Arith Lia.
Import ListNotations.
Open Scope string_scope.
Open Scope list_scope.

Set Implicit Arguments.

(* ================================================================== *)
(** * JavaScript strings and the regular expressions of the worker *)

Module Js.

(** [s.startsWith(p)] *)
Definition startsWith (s p : string) : bool := String.prefix p s.

(** [s.includes(sub)]: [sub] occurs at some position of [s]. *)
Fixpoint includes (s sub : string) : bool :=
  String.prefix sub s ||
  match s with
  | EmptyString => false
  | String _ s' => includes s' sub
  end.

(** The remainder of [s] after the literal [w], when [s] starts with it. *)
Fixpoint strip_prefix (w s : string) : option string :=
  match w, s with
  | EmptyString, _ => Some s
  | String a w', String b s' =>
      if Ascii.eqb a b then strip_prefix w' s' else None
  | String _ _, EmptyString => None
  end.

(** The fragment of regular expressions the worker's two patterns use:
    literals, alternation [a|b], concatenation and the optional [a?]. *)
Inductive regex : Type :=
| Lit (w : string)
| Alt (a b : regex)
| Seq (a b : regex)
| Opt (a : regex).

(** Backtracking matcher: every remainder that matching [r] at the start
    of [s] can leave, in the order a backtracking engine tries them. *)
Fixpoint rmatch (r : regex) (s : string) : list string :=
  match r with
  | Lit w =>
      match strip_prefix w s with
      | Some rest => [rest]
      | None => []
      end
  | Alt a b => rmatch a s ++ rmatch b s
  | Seq a b => flat_map (rmatch b) (rmatch a s)
  | Opt a => rmatch a s ++ [s]
  end.

Definition is_empty (s : string) : bool :=
  match s with
  | EmptyString => true
  | String _ _ => false
  end.

(** [r$] tried at the start of [s]: [r] must consume all of [s]. *)
Definition match_to_end (r : regex) (s : string) : bool :=
  existsb is_empty (rmatch r s).

(** [s.match(/r$/)], read for its truthiness (an array when the pattern
    matches at some position, [null] otherwise). *)
Fixpoint match_at_end (r : regex) (s : string) : bool :=
  match_to_end r s ||
  match s with
  | EmptyString => false
  | String _ s' => match_at_end r s'
  end.

(** The words a pattern denotes. *)
Fixpoint lang (r : regex) (w : string) : Prop :=
  match r with
  | Lit v => w = v
  | Alt a b => lang a w \/ lang b w
  | Seq a b => exists u v, w = (u ++ v)%string /\ lang a u /\ lang b v
  | Opt a => lang a w \/ w = EmptyString
  end.

(** [sub] occurs in [s]. *)
Definition contains (s sub : string) : Prop :=
  exists front back, s = (front ++ sub ++ back)%string.

(** [s] ends with [suffix]. *)
Definition ends_with (s suffix : string) : Prop :=
  exists front, s = (front ++ suffix)%string.

(** ASCII lower-casing, as header names are compared. *)
Definition lower_ascii (c : ascii) : ascii :=
  let n := nat_of_ascii c in
  if ((65 <=? n) && (n <=? 90))%nat then ascii_of_nat (n + 32) else c.

Fixpoint toLowerCase (s : string) : string :=
  match s with
  | EmptyString => EmptyString
  | String c s' => String (lower_ascii c) (toLowerCase s')
  end.

End Js.

(* ================================================================== *)
(** * Requests and responses *)

(** The parts of [new URL(request.url)] the worker reads. *)
Record URL : Type := mkURL {
  href : string;
  pathname : string
}.

(** A request with its URL in parsed form. *)
Record Request : Type := mkRequest {
  method : string;
  url : URL
}.

Record Response : Type := mkResponse {
  status : nat;
  statusText : string;
  headers : list (string * string);
  body : string
}.

Definition URL_eq_dec (a b : URL) : {a = b} + {a <> b}.
Proof. decide equality; apply string_dec. Defined.

(** Request identity: method and URL. *)
Definition Request_eq_dec (a b : Request) : {a = b} + {a <> b}.
Proof. decide equality; [apply URL_eq_dec | apply string_dec]. Defined.

Definition same_request (a b : Request) : bool :=
  if Request_eq_dec a b then true else false.

(** [headers.get(name)]: names are compared without regard to case. *)
Fixpoint Headers_get (hs : list (string * string)) (name : string)
  : option string :=
  match hs with
  | [] => None
  | (n, v) :: hs' =>
      if (Js.toLowerCase n =? Js.toLowerCase name)%string then Some v
      else Headers_get hs' name
  end.

(** [response.clone()]: an independent copy with the same contents. *)
Definition clone (r : Response) : Response := r.

(* ================================================================== *)
(** * The cache store *)

Definition Cache : Type := list (Request * Response).
Definition CacheStorage : Type := list (string * Cache).

Module Store.

(** ** One cache: entries in insertion order *)

Definition entry_match (c : Cache) (request : Request) : option Response :=
  option_map snd (find (fun e => same_request (fst e) request) c).

Definition entry_delete (c : Cache) (request : Request) : Cache :=
  filter (fun e => negb (same_request (fst e) request)) c.

(** [put] replaces an entry of the same request and appends the new one. *)
Definition entry_put (c : Cache) (request : Request) (response : Response)
  : Cache :=
  entry_delete c request ++ [(request, response)].

Definition entry_keys (c : Cache) : list Request := map fst c.

(** ** The named caches *)

Definition names (st : CacheStorage) : list string := map fst st.

Definition lookup (st : CacheStorage) (name : string) : option Cache :=
  option_map snd (find (fun p => (fst p =? name)%string) st).

Definition has (st : CacheStorage) (name : string) : bool :=
  existsb (fun p => (fst p =? name)%string) st.

(** [caches.open(name)] creates an empty cache when none has the name. *)
Definition open (st : CacheStorage) (name : string) : CacheStorage :=
  if has st name then st else st ++ [(name, [])].

(** [caches.delete(name)] *)
Definition delete (st : CacheStorage) (name : string) : CacheStorage :=
  filter (fun p => negb (fst p =? name)%string) st.

(** Apply [f] to the cache called [name]. *)
Definition update (st : CacheStorage) (name : string) (f : Cache -> Cache)
  : CacheStorage :=
  map (fun p => if (fst p =? name)%string then (fst p, f (snd p)) else p) st.

(** The entries of the cache called [name] (none when it does not exist). *)
Definition entries (st : CacheStorage) (name : string) : Cache :=
  match lookup st name with
  | Some c => c
  | None => []
  end.

(** What [cache.match(request)] on the cache called [name] finds. *)
Definition stored (st : CacheStorage) (name : string) (request : Request)
  : option Response :=
  entry_match (entries st name) request.

(** No two entries of a cache have the same request. *)
Definition distinct_keys (c : Cache) : Prop := NoDup (entry_keys c).

End Store.

(* ================================================================== *)
(** * Effects: the store, the network and the trace *)

Inductive Event : Type :=
| CachesOpen (name : string)
| CachesKeys
| CachesDelete (name : string)
| CacheMatch (name : string) (request : Request)
| CachePut (name : string) (request : Request) (response : Response)
| CacheKeys (name : string)
| CacheDelete (name : string) (request : Request)
| NetFetch (request : Request)
| SkipWaiting
| ClientsClaim.

Record World : Type := mkWorld {
  caches : CacheStorage;
  trace : list Event
}.

(** A computation of the worker: it reads and updates the world. *)
Definition M (A : Type) : Type := World -> A * World.

Definition ret {A} (a : A) : M A := fun w => (a, w).

Definition bind {A B} (m : M A) (k : A -> M B) : M B :=
  fun w => let (a, w') := m w in k a w'.

Notation "x <- m ;; k" := (bind m (fun x => k))
  (at level 61, m at next level, right associativity).
Notation "m ;;; k" := (bind m (fun _ => k))
  (at level 61, right associativity).

Definition emit (e : Event) : M unit :=
  fun w => (tt, mkWorld (caches w) (trace w ++ [e])).

Definition get_store : M CacheStorage := fun w => (caches w, w).

Definition set_store (st : CacheStorage) : M unit :=
  fun w => (tt, mkWorld st (trace w)).

(** [Promise.all(xs.map(f))] *)
Fixpoint for_all {A B} (f : A -> M B) (xs : list A) : M (list B) :=
  match xs with
  | [] => ret []
  | x :: xs' => b <- f x ;; bs <- for_all f xs' ;; ret (b :: bs)
  end.

(** The outcome of [fetch(request)]. *)
Inductive Fetched : Type :=
| Resolved (response : Response)
| Rejected.

Definition Network : Type := Request -> Fetched.

Module Api.

(** [caches.open(name)]; the handle is the name. *)
Definition caches_open (name : string) : M string :=
  emit (CachesOpen name) ;;;
  st <- get_store ;;
  set_store (Store.open st name) ;;;
  ret name.

Definition caches_keys : M (list string) :=
  emit CachesKeys ;;;
  st <- get_store ;;
  ret (Store.names st).

Definition caches_delete (name : string) : M bool :=
  emit (CachesDelete name) ;;;
  st <- get_store ;;
  set_store (Store.delete st name) ;;;
  ret (Store.has st name).

Definition cache_match (cache : string) (request : Request)
  : M (option Response) :=
  emit (CacheMatch cache request) ;;;
  st <- get_store ;;
  ret (Store.stored st cache request).

Definition cache_put (cache : string) (request : Request)
  (response : Response) : M unit :=
  emit (CachePut cache request response) ;;;
  st <- get_store ;;
  set_store
    (Store.update st cache (fun c => Store.entry_put c request response)).

Definition cache_keys (cache : string) : M (list Request) :=
  emit (CacheKeys cache) ;;;
  st <- get_store ;;
  ret (Store.entry_keys (Store.entries st cache)).

Definition cache_delete (cache : string) (request : Request) : M bool :=
  emit (CacheDelete cache request) ;;;
  st <- get_store ;;
  set_store (Store.update st cache (fun c => Store.entry_delete c request)) ;;;
  ret (match Store.stored st cache request with
       | Some _ => true
       | None => false
       end).

Definition fetch (net : Network) (request : Request) : M Fetched :=
  emit (NetFetch request) ;;;
  ret (net request).

Definition skipWaiting : M unit := emit SkipWaiting.

Definition clients_claim : M unit := emit ClientsClaim.

End Api.

(** The values the operand of [||] in [cacheFirst] ranges over. *)
Inductive JsValue : Type :=
| JsUndefined
| JsResponse (response : Response)
| JsPromise (settles_to : option Response).

(** Every object is truthy, a promise included; [undefined] is not. *)
Definition truthy (v : JsValue) : bool :=
  match v with
  | JsUndefined => false
  | JsResponse _ => true
  | JsPromise _ => true
  end.

(** [a || b] *)
Definition js_or (a b : JsValue) : JsValue := if truthy a then a else b.

(** What the promise of an [async] function that returns [v] settles to
    ([None] is [undefined]). *)
Definition settle (v : JsValue) : option Response :=
  match v with
  | JsUndefined => None
  | JsResponse r => Some r
  | JsPromise o => o
  end.

(** [xs.slice(b, e)] for indices within bounds. *)
Definition slice {A} (xs : list A) (b e : nat) : list A :=
  firstn (e - b) (skipn b xs).

(* ================================================================== *)
(** * The worker *)

Definition CACHE_VERSION : string := "shopify-theme-v1".
Definition STATIC_CACHE : string := (CACHE_VERSION ++ "-static")%string.
Definition DYNAMIC_CACHE : string := (CACHE_VERSION ++ "-dynamic")%string.
Definition MAX_DYNAMIC_CACHE_SIZE : nat := 50.

(** The assets listed for installation.  The install listener caches none
    of them: the list is not used. *)
Definition STATIC_ASSETS : list string :=
  ["/cdn/shop/t/*/assets/base.css";
   "/cdn/shop/t/*/assets/shrine.null.js";
   "/cdn/shop/t/*/assets/secondary.js"].

(** [/\.(css|js|woff2?|ttf|eot)$/] without the end anchor. *)
Definition static_pattern : Js.regex :=
  Js.Seq (Js.Lit ".")
    (Js.Alt (Js.Lit "css")
    (Js.Alt (Js.Lit "js")
    (Js.Alt (Js.Seq (Js.Lit "woff") (Js.Opt (Js.Lit "2")))
    (Js.Alt (Js.Lit "ttf")
            (Js.Lit "eot"))))).

(** [/\.(jpg|jpeg|png|gif|webp|svg|avif)$/] without the end anchor. *)
Definition image_pattern : Js.regex :=
  Js.Seq (Js.Lit ".")
    (Js.Alt (Js.Lit "jpg")
    (Js.Alt (Js.Lit "jpeg")
    (Js.Alt (Js.Lit "png")
    (Js.Alt (Js.Lit "gif")
    (Js.Alt (Js.Lit "webp")
    (Js.Alt (Js.Lit "svg")
            (Js.Lit "avif"))))))).

Definition isStaticAsset (u : URL) : bool :=
  Js.match_at_end static_pattern (pathname u).

Definition isImage (u : URL) : bool :=
  Js.match_at_end image_pattern (pathname u).

(** ** The two synthesized responses *)

Definition dq : string := String (ascii_of_nat 34) EmptyString.
Definition nl : string := String (ascii_of_nat 10) EmptyString.

(** [new Response('Offline', { status: 503 })]: a text body gets the
    default content type, and the status text defaults to the empty one. *)
Definition offline_response : Response :=
  {| status := 503;
     statusText := EmptyString;
     headers := [("content-type", "text/plain;charset=UTF-8")];
     body := "Offline" |}.

(** The template literal of [networkFirst], line by line. *)
Definition offline_page : string :=
  String.concat nl
    [ "";
      "      <!DOCTYPE html>";
      "      <html>";
      "        <head>";
      ("          <meta charset=" ++ dq ++ "utf-8" ++ dq ++ ">")%string;
      ("          <meta name=" ++ dq ++ "viewport" ++ dq ++ " content=" ++ dq ++ "width=device-width,initial-scale=1" ++ dq ++ ">")%string;
      "          <title>Sin conexión</title>";
      "          <style>";
      "            body {";
      "              font-family: -apple-system, BlinkMacSystemFont, 'Segoe UI', sans-serif;";
      "              display: flex;";
      "              align-items: center;";
      "              justify-content: center;";
      "              min-height: 100vh;";
      "              margin: 0;";
      "              background: #f5f5f5;";
      "              text-align: center;";
      "              padding: 20px;";
      "            }";
      "            .offline-message {";
      "              max-width: 400px;";
      "            }";
      "            h1 {";
      "              font-size: 24px;";
      "              margin-bottom: 16px;";
      "            }";
      "            p {";
      "              color: #666;";
      "              line-height: 1.6;";
      "            }";
      "            button {";
      "              margin-top: 20px;";
      "              padding: 12px 24px;";
      "              background: #000;";
      "              color: #fff;";
      "              border: none;";
      "              border-radius: 4px;";
      "              cursor: pointer;";
      "              font-size: 16px;";
      "            }";
      "          </style>";
      "        </head>";
      "        <body>";
      ("          <div class=" ++ dq ++ "offline-message" ++ dq ++ ">")%string;
      "            <h1>📱 Sin conexión</h1>";
      "            <p>No hay conexión a internet. Por favor, verifica tu conexión e intenta nuevamente.</p>";
      ("            <button onclick=" ++ dq ++ "location.reload()" ++ dq ++ ">Reintentar</button>")%string;
      "          </div>";
      "        </body>";
      "      </html>";
      "    " ].

Definition offline_page_response : Response :=
  {| status := 503;
     statusText := "Service Unavailable";
     headers := [("Content-Type", "text/html")];
     body := offline_page |}.

(** The control the offline page offers for trying again. *)
Definition retry_button : string :=
  ("<button onclick=" ++ dq ++ "location.reload()" ++ dq
     ++ ">Reintentar</button>")%string.

(** ** limitCacheSize *)

Definition limitCacheSize (cacheName : string) (maxSize : nat) : M unit :=
  cache <- Api.caches_open cacheName ;;
  keys <- Api.cache_keys cache ;;
  if (maxSize <? List.length keys)%nat then
    let keysToDelete := slice keys 0 (List.length keys - maxSize) in
    for_all (Api.cache_delete cache) keysToDelete ;;;
    ret tt
  else ret tt.

(** ** cacheFirst *)

Definition cacheFirst (net : Network) (request : Request)
  : M (option Response) :=
  cache <- Api.caches_open STATIC_CACHE ;;
  cached <- Api.cache_match cache request ;;
  match cached with
  | Some hit => ret (Some hit)
  | None =>
      fetched <- Api.fetch net request ;;
      match fetched with
      | Resolved response =>
          (if (status response =? 200)%nat
           then Api.cache_put cache request (clone response)
           else ret tt) ;;;
          ret (Some response)
      | Rejected =>
          (* return cache.match(request) || new Response('Offline', ...) *)
          pending <- Api.cache_match cache request ;;
          ret (settle (js_or (JsPromise pending) (JsResponse offline_response)))
      end
  end.

(** ** networkFirst *)

(** The run in which the un-awaited [cache.put] has landed when
    [limitCacheSize] lists the keys. *)
Definition networkFirst (net : Network) (request : Request)
  : M (option Response) :=
  cache <- Api.caches_open DYNAMIC_CACHE ;;
  fetched <- Api.fetch net request ;;
  match fetched with
  | Resolved response =>
      (if (status response =? 200)%nat
       then Api.cache_put cache request (clone response) ;;;
            limitCacheSize DYNAMIC_CACHE MAX_DYNAMIC_CACHE_SIZE
       else ret tt) ;;;
      ret (Some response)
  | Rejected =>
      cached <- Api.cache_match cache request ;;
      match cached with
      | Some hit => ret (Some hit)
      | None => ret (Some offline_page_response)
      end
  end.

(** The run in which [limitCacheSize] lists the keys, and deletes, before
    the un-awaited [cache.put] lands: the put has the response body to read
    first, and neither call is awaited. *)
Definition networkFirst_put_last (net : Network) (request : Request)
  : M (option Response) :=
  cache <- Api.caches_open DYNAMIC_CACHE ;;
  fetched <- Api.fetch net request ;;
  match fetched with
  | Resolved response =>
      (if (status response =? 200)%nat
       then limitCacheSize DYNAMIC_CACHE MAX_DYNAMIC_CACHE_SIZE ;;;
            Api.cache_put cache request (clone response)
       else ret tt) ;;;
      ret (Some response)
  | Rejected =>
      cached <- Api.cache_match cache request ;;
      match cached with
      | Some hit => ret (Some hit)
      | None => ret (Some offline_page_response)
      end
  end.

(** ** The listeners *)

Definition on_install : M unit :=
  Api.caches_open STATIC_CACHE ;;;
  Api.skipWaiting.

(** The filter of the activate listener: an old cache of this theme. *)
Definition is_old_cache (cacheName : string) : bool :=
  Js.startsWith cacheName "shopify-theme-"
  && negb (cacheName =? STATIC_CACHE)%string
  && negb (cacheName =? DYNAMIC_CACHE)%string.

Definition on_activate : M unit :=
  cacheNames <- Api.caches_keys ;;
  for_all Api.caches_delete (filter is_old_cache cacheNames) ;;;
  Api.clients_claim.

(** What a fetch event ends with: the listener returned without calling
    [event.respondWith] (the browser performs the request itself), or it
    answered with what a strategy's promise settles to. *)
Inductive FetchResult : Type :=
| PassThrough
| RespondWith (answer : option Response).

(** The paths the fetch listener leaves alone. *)
Definition is_excluded_path (u : URL) : bool :=
  Js.includes (pathname u) "/admin"
  || Js.includes (pathname u) "/checkout"
  || Js.includes (pathname u) "/cart/add"
  || Js.includes (pathname u) "/cart/update".

(** [event.respondWith(strategy(request))] *)
Definition respondWith (strategy : M (option Response)) : M FetchResult :=
  answer <- strategy ;; ret (RespondWith answer).

Definition on_fetch (net : Network) (request : Request) : M FetchResult :=
  let u := url request in
  if negb (method request =? "GET")%string then ret PassThrough
  else if is_excluded_path u then ret PassThrough
  else if isStaticAsset u then respondWith (cacheFirst net request)
  else if isImage u then respondWith (cacheFirst net request)
  else respondWith (networkFirst net request).

(** The message listener, on [event.data.action]. *)
Definition on_message (action : string) : M unit :=
  (if (action =? "skipWaiting")%string then Api.skipWaiting else ret tt) ;;;
  if (action =? "clearCache")%string then
    cacheNames <- Api.caches_keys ;;
    for_all Api.caches_delete cacheNames ;;;
    ret tt
  else ret tt.

(** ** Runs of the worker *)

(** The store a computation leaves behind. *)
Definition store_after {A} (m : M A) (w : World) : CacheStorage :=
  caches (snd (m w)).

(** The calls a computation adds to the trace of [w]. *)
Definition calls {A} (m : M A) (w : World) : list Event :=
  skipn (List.length (trace w)) (trace (snd (m w))).

Definition is_cache_write (e : Event) : bool :=
  match e with
  | CachePut _ _ _ | CacheDelete _ _ | CachesDelete _ => true
  | _ => false
  end.

Definition is_network_call (e : Event) : bool :=
  match e with
  | NetFetch _ => true
  | _ => false
  end.

Definition is_cache_put (e : Event) : bool :=
  match e with
  | CachePut _ _ _ => true
  | _ => false
  end.

(** A cache of an earlier version of this theme: its name has the theme's
    prefix and is neither of the two current names. *)
Definition stale (cacheName : string) : Prop :=
  (exists rest, cacheName = ("shopify-theme-" ++ rest)%string)
  /\ cacheName <> STATIC_CACHE
  /\ cacheName <> DYNAMIC_CACHE.

(** The lookup a strategy starts with: open the cache, then match. *)
Definition open_and_match (cacheName : string) (request : Request)
  : M (option Response) :=
  cache <- Api.caches_open cacheName ;;
  Api.cache_match cache request.

(** ** Sample requests, responses and networks *)

Definition get (path : string) : Request :=
  mkRequest "GET" (mkURL ("https://shop.example" ++ path) path).

Definition post (path : string) : Request :=
  mkRequest "POST" (mkURL ("https://shop.example" ++ path) path).

Definition ok (content : string) : Response :=
  mkResponse 200 "OK" [("content-type", "text/html")] content.

Definition not_found : Response :=
  mkResponse 404 "Not Found" [("content-type", "text/html")] "missing".

Definition network_down : Network := fun _ => Rejected.

Definition network_answers (response : Response) : Network :=
  fun _ => Resolved response.

(** A run of dynamic-page requests, each answered by the network: request
    and response of every step, in order. *)
Fixpoint serve_pages (steps : list (Request * Response)) (w : World) : World :=
  match steps with
  | [] => w
  | (request, response) :: rest =>
      serve_pages rest
        (snd (networkFirst (network_answers response) request w))
  end.

(** The same run of page views when every put lands last. *)
Fixpoint serve_pages_put_last (steps : list (Request * Response)) (w : World)
  : World :=
  match steps with
  | [] => w
  | (request, response) :: rest =>
      serve_pages_put_last rest
        (snd (networkFirst_put_last (network_answers response) request w))
  end.

(** The [n]-th of a family of distinct product pages. *)
Definition product (n : nat) : Request :=
  get ("/products/" ++ String (ascii_of_nat (48 + n)) EmptyString).

(** [n] page views, each of another product and each answered with 200. *)
Definition product_views (n : nat) : list (Request * Response) :=
  map (fun i => (product i, ok "product")) (seq 0 n).

Definition empty_world : World := mkWorld [] [].

(** The extension test the specification words: the path ends with a dot
    followed by one of [exts]. *)
Definition has_extension (path : string) (exts : list string) : Prop :=
  exists ext, In ext exts /\ Js.ends_with path ("." ++ ext)%string.

Definition static_extensions : list string :=
  ["css"; "js"; "woff"; "woff2"; "ttf"; "eot"].

Definition image_extensions : list string :=
  ["jpg"; "jpeg"; "png"; "gif"; "webp"; "svg"; "avif"].

(** The substrings that exclude a path from caching. *)
Definition excluded_substrings : list string :=
  ["/admin"; "/checkout"; "/cart/add"; "/cart/update"].

(** What [limitCacheSize] leaves of a cache: the entries whose request is
    not among the first [length c - maxSize] keys. *)
Definition trim (maxSize : nat) (c : Cache) : Cache :=
  if (maxSize <? List.length c)%nat then
    fold_left Store.entry_delete
      (slice (Store.entry_keys c) 0 (List.length c - maxSize)) c
  else c.

(** The request of entry [e] occurs among [ks]. *)
Definition among (ks : list Request) (e : Request * Response) : bool :=
  existsb (same_request (fst e)) ks.

(** The name [name] occurs among [ns]. *)
Definition named (ns : list string) (name : string) : bool :=
  existsb (String.eqb name) ns.

(** The keys [limitCacheSize] deletes from a cache [c]: none when the
    cache is within [maxSize], its first [length c - maxSize] otherwise. *)
Definition doomed (maxSize : nat) (c : Cache) : list Request :=
  if (maxSize <? List.length c)%nat
  then slice (Store.entry_keys c) 0 (List.length c - maxSize)
  else [].

(** ** The events the browser delivers to the worker *)

Inductive WorkerEvent : Type :=
| Install
| Activate
| Fetch (net : Network) (request : Request)
| Message (action : string).

(** The listener registered for each event. *)
Definition dispatch (e : WorkerEvent) : M unit :=
  match e with
  | Install => on_install
  | Activate => on_activate
  | Fetch net request => on_fetch net request ;;; ret tt
  | Message action => on_message action
  end.

(** Events handled one after the other. *)
Fixpoint deliver (events : list WorkerEvent) (w : World) : World :=
  match events with
  | [] => w
  | e :: rest => deliver rest (snd (dispatch e w))
  end.

(** A first visit: the worker is installed and activated, a stylesheet
    and a product page are fetched, a cart update is posted and a checkout
    page that fails is requested. *)
Definition first_visit : list WorkerEvent :=
  [Install;
   Activate;
   Fetch (network_answers (ok "body { margin: 0 }")) (get "/assets/app.css");
   Fetch (network_answers (ok "widget")) (get "/products/widget");
   Fetch (network_answers (ok "added")) (post "/cart/add");
   Fetch (network_answers not_found) (get "/pages/missing");
   Fetch (network_answers (ok "pay")) (get "/checkout")].

(** A request the fetch listener hands to a strategy. *)
Definition cacheable (request : Request) : Prop :=
  method request = "GET" /\ is_excluded_path (url request) = false.

(** A request the fetch listener hands to [cacheFirst]. *)
Definition is_asset (request : Request) : bool :=
  isStaticAsset (url request) || isImage (url request).

(** An entry in the cache it belongs to: a cacheable request with a
    response of status 200, an asset in the static cache and anything else
    in the dynamic one. *)
Definition well_placed (name : string) (e : Request * Response) : Prop :=
  cacheable (fst e)
  /\ status (snd e) = 200
  /\ (name = STATIC_CACHE -> is_asset (fst e) = true)
  /\ (name = DYNAMIC_CACHE -> is_asset (fst e) = false).

(** What the listeners keep true of the store: only the two current caches
    exist, no cache holds two entries of one request, and every entry is
    well placed. *)
Definition kept_well (st : CacheStorage) : Prop :=
  (forall name, In name (Store.names st) ->
                name = STATIC_CACHE \/ name = DYNAMIC_CACHE)
  /\ (forall name, Store.distinct_keys (Store.entries st name))
  /\ (forall name e, In e (Store.entries st name) -> well_placed name e).

(* ================================================================== *)
(** * Strings and patterns *)

Section StringFacts.

Lemma append_nil_r (s : string) : (s ++ EmptyString)%string = s.
Proof. induction s as [|c s IH]; simpl; [reflexivity | now rewrite IH]. Qed.

Lemma append_assoc (a b c : string) :
  ((a ++ b) ++ c)%string = (a ++ (b ++ c))%string.
Proof. induction a as [|x a IH]; simpl; [reflexivity | now rewrite IH]. Qed.

Lemma strip_prefix_spec (w s rest : string) :
  Js.strip_prefix w s = Some rest <-> s = (w ++ rest)%string.
Proof.
  revert s; induction w as [|a w IH]; intros s; simpl.
  - split; [intros [= ->] | intros ->]; reflexivity.
  - destruct s as [|b s].
    + split; discriminate.
    + destruct (Ascii.eqb_spec a b) as [->|Hab].
      * rewrite IH. split; [intros -> | intros [= ->]]; reflexivity.
      * split; [discriminate | intros [= E _]; now elim Hab].
Qed.

Lemma prefix_spec (p s : string) :
  String.prefix p s = true <-> exists rest, s = (p ++ rest)%string.
Proof.
  revert s; induction p as [|a p IH]; intros s.
  - split; [intros _; now exists s | now destruct s].
  - destruct s as [|b s]; simpl.
    + split; [discriminate | intros [rest [=]]].
    + destruct (ascii_dec a b) as [->|Hab].
      * rewrite IH. split; intros [rest E]; exists rest.
        -- now rewrite E.
        -- now injection E.
      * split; [discriminate | intros [rest [= E _]]; now elim Hab].
Qed.

(** [includes] finds exactly the substrings. *)
Lemma includes_spec (s sub : string) :
  Js.includes s sub = true <->
  exists front back, s = (front ++ sub ++ back)%string.
Proof.
  induction s as [|c s IH]; cbn [Js.includes]; rewrite orb_true_iff.
  - split.
    + intros [H|H]; [|discriminate].
      apply prefix_spec in H as [back E]. now exists EmptyString, back.
    + intros (front & back & E). left. apply prefix_spec.
      destruct front; [now exists back | discriminate].
  - rewrite IH. split.
    + intros [H|(front & back & E)].
      * apply prefix_spec in H as [back E]. now exists EmptyString, back.
      * exists (String c front), back. simpl. now rewrite E.
    + intros (front & back & E). destruct front as [|x front].
      * left. apply prefix_spec. now exists back.
      * right. simpl in E. injection E as _ E. now exists front, back.
Qed.

Lemma ends_with_self (s : string) : Js.ends_with s s.
Proof. now exists EmptyString. Qed.

Lemma ends_with_cons (c : ascii) (s suffix : string) :
  Js.ends_with s suffix -> Js.ends_with (String c s) suffix.
Proof. intros [front ->]. now exists (String c front). Qed.

End StringFacts.

Section PatternFacts.

Import Js.

(** The matcher leaves [rest] exactly when a word of the pattern stands
    in front of it. *)
Lemma rmatch_spec (r : regex) : forall s rest,
  In rest (rmatch r s) <-> exists w, lang r w /\ s = (w ++ rest)%string.
Proof.
  induction r as [v | a IHa b IHb | a IHa b IHb | a IHa]; intros s rest; simpl.
  - destruct (strip_prefix v s) as [t|] eqn:E.
    + apply strip_prefix_spec in E. split.
      * intros [<-|[]]. now exists v.
      * intros (w & -> & E'). left. rewrite E in E'.
        clear E. induction v; simpl in E'; [easy | injection E' as E'; auto].
    + split; [intros [] | intros (w & -> & E')].
      apply strip_prefix_spec in E'. congruence.
  - rewrite in_app_iff, IHa, IHb. split.
    + intros [(w & H & E)|(w & H & E)]; exists w; auto.
    + intros (w & [H|H] & E); [left | right]; now exists w.
  - rewrite in_flat_map. split.
    + intros (mid & Ha & Hb). apply IHa in Ha as (u & Hu & ->).
      apply IHb in Hb as (v & Hv & ->).
      exists (u ++ v)%string. split; [now exists u, v | now rewrite append_assoc].
    + intros (w & (u & v & -> & Hu & Hv) & ->).
      exists (v ++ rest)%string. split.
      * apply IHa. exists u. split; [easy | now rewrite append_assoc].
      * apply IHb. now exists v.
  - rewrite in_app_iff, IHa. simpl. split.
    + intros [(w & H & E)|[<-|[]]]; [exists w; auto | exists EmptyString; auto].
    + intros (w & [H| ->] & E); [left; now exists w | right; left; now rewrite E].
Qed.

Lemma match_to_end_spec (r : regex) (s : string) :
  match_to_end r s = true <-> lang r s.
Proof.
  unfold match_to_end. rewrite existsb_exists. split.
  - intros (rest & Hin & Hempty). destruct rest; [|discriminate].
    apply rmatch_spec in Hin as (w & Hw & ->). now rewrite append_nil_r.
  - intros H. exists EmptyString. split; [|reflexivity].
    apply rmatch_spec. exists s. now rewrite append_nil_r.
Qed.

(** [/r$/] matches [s] exactly when [s] ends with a word of [r]. *)
Lemma match_at_end_spec (r : regex) (s : string) :
  match_at_end r s = true <-> exists w, lang r w /\ ends_with s w.
Proof.
  induction s as [|c s IH]; simpl; rewrite orb_true_iff, match_to_end_spec.
  - split.
    + intros [H|H]; [|discriminate]. exists EmptyString. split; [easy | apply ends_with_self].
    + intros (w & Hw & [front E]). left.
      destruct front; [|discriminate]. simpl in E. now subst.
  - rewrite IH. split.
    + intros [H|(w & Hw & He)].
      * exists (String c s). split; [easy | apply ends_with_self].
      * exists w. split; [easy | now apply ends_with_cons].
    + intros (w & Hw & [front E]). destruct front as [|x front].
      * left. simpl in E. now subst.
      * right. injection E as _ E. exists w. split; [easy | now exists front].
Qed.

End PatternFacts.

(* ================================================================== *)
(** * Classification of paths *)

Section Classification.

Lemma static_pattern_words (w : string) :
  Js.lang static_pattern w <->
  exists ext, In ext static_extensions /\ w = ("." ++ ext)%string.
Proof.
  unfold static_pattern, static_extensions; simpl. split.
  - intros (u & v & -> & -> & H).
    exists v. split; [|reflexivity].
    destruct H as [->|[->|[(a & b & -> & -> & [->| ->])|[->| ->]]]]; simpl; tauto.
  - intros (ext & H & ->). exists ".", ext.
    split; [reflexivity | split; [reflexivity |]].
    destruct H as [<-|[<-|[<-|[<-|[<-|[<-|[]]]]]]]; try tauto.
    + right; right; left. exists "woff", EmptyString. simpl; tauto.
    + right; right; left. exists "woff", "2". simpl; tauto.
Qed.

Lemma image_pattern_words (w : string) :
  Js.lang image_pattern w <->
  exists ext, In ext image_extensions /\ w = ("." ++ ext)%string.
Proof.
  unfold image_pattern, image_extensions; simpl. split.
  - intros (u & v & -> & -> & H). exists v. split; [|reflexivity].
    repeat (destruct H as [->|H]; [simpl; tauto|]). subst; simpl; tauto.
  - intros (ext & H & ->). exists ".", ext.
    split; [reflexivity | split; [reflexivity |]].
    repeat (destruct H as [<-|H]; [tauto|]). destruct H.
Qed.

(** [isStaticAsset] is the extension test on the six static extensions. *)
Lemma isStaticAsset_spec (u : URL) :
  isStaticAsset u = true <-> has_extension (pathname u) static_extensions.
Proof.
  unfold isStaticAsset, has_extension. rewrite match_at_end_spec. split.
  - intros (w & Hw & He). apply static_pattern_words in Hw as (ext & Hin & ->).
    now exists ext.
  - intros (ext & Hin & He). exists ("." ++ ext)%string. split; [|easy].
    apply static_pattern_words. now exists ext.
Qed.

(** [isImage] is the extension test on the seven image extensions. *)
Lemma isImage_spec (u : URL) :
  isImage u = true <-> has_extension (pathname u) image_extensions.
Proof.
  unfold isImage, has_extension. rewrite match_at_end_spec. split.
  - intros (w & Hw & He). apply image_pattern_words in Hw as (ext & Hin & ->).
    now exists ext.
  - intros (ext & Hin & He). exists ("." ++ ext)%string. split; [|easy].
    apply image_pattern_words. now exists ext.
Qed.

(** [is_excluded_path] holds exactly when the path contains one of the
    four excluded substrings. *)
Lemma is_excluded_path_spec (u : URL) :
  is_excluded_path u = true <->
  exists sub, In sub excluded_substrings /\ Js.includes (pathname u) sub = true.
Proof.
  unfold is_excluded_path, excluded_substrings.
  rewrite !orb_true_iff. simpl. split.
  - intros [[[H|H]|H]|H]; eexists; (split; [|exact H]); tauto.
  - intros (sub & [<-|[<-|[<-|[<-|[]]]]] & H); tauto.
Qed.

End Classification.

(* ================================================================== *)
(** * The store *)

Section EntryFacts.

Lemma same_request_true (a b : Request) : same_request a b = true <-> a = b.
Proof. unfold same_request. destruct (Request_eq_dec a b); split; congruence. Qed.

Lemma same_request_refl (a : Request) : same_request a a = true.
Proof. now apply same_request_true. Qed.

Lemma filter_none {A} (f : A -> bool) (l : list A) :
  (forall x, In x l -> f x = false) -> filter f l = [].
Proof.
  induction l as [|x l IH]; simpl; intros H; [reflexivity|].
  rewrite (H x (or_introl eq_refl)). apply IH. intros y Hy. apply H. now right.
Qed.

Lemma filter_every {A} (f : A -> bool) (l : list A) :
  (forall x, In x l -> f x = true) -> filter f l = l.
Proof.
  induction l as [|x l IH]; simpl; intros H; [reflexivity|].
  rewrite (H x (or_introl eq_refl)). f_equal. apply IH. intros y Hy. apply H. now right.
Qed.

Lemma filter_twice {A} (f g : A -> bool) (l : list A) :
  filter g (filter f l) = filter (fun x => f x && g x) l.
Proof.
  induction l as [|x l IH]; simpl; [reflexivity|].
  destruct (f x); simpl; [destruct (g x)|]; now rewrite IH.
Qed.

Lemma among_In (ks : list Request) (e : Request * Response) :
  among ks e = true <-> In (fst e) ks.
Proof.
  unfold among. rewrite existsb_exists. split.
  - intros (k & Hin & Hk). apply same_request_true in Hk. now subst.
  - intros H. exists (fst e). split; [easy | apply same_request_refl].
Qed.

(** Deleting keys one after the other removes the entries of these keys
    and keeps the others in their order. *)
Lemma delete_all_filter (ks : list Request) : forall c : Cache,
  fold_left Store.entry_delete ks c = filter (fun e => negb (among ks e)) c.
Proof.
  induction ks as [|k ks IH]; intros c; simpl.
  - symmetry. now apply filter_every.
  - rewrite IH. unfold Store.entry_delete. rewrite filter_twice.
    apply filter_ext. intros e. unfold among. simpl.
    now rewrite negb_orb.
Qed.

Lemma distinct_apart {A} (l1 l2 : list A) (x : A) :
  NoDup (l1 ++ l2) -> In x l1 -> In x l2 -> False.
Proof.
  induction l1 as [|a l1 IH]; simpl; intros Hnd H1 H2; [easy|].
  inversion Hnd as [|? ? Hnotin Hnd']; subst.
  destruct H1 as [->|H1]; [|now apply IH].
  apply Hnotin, in_or_app. now right.
Qed.

(** Deleting the keys of a front part of a cache: nothing of the front
    stays, and with distinct keys all of the back does. *)
Lemma delete_front_length (front back : Cache) :
  List.length (fold_left Store.entry_delete (Store.entry_keys front) (front ++ back))
  <= List.length back.
Proof.
  rewrite delete_all_filter, filter_app, (filter_none _ front).
  - apply filter_length_le.
  - intros e He. apply negb_false_iff, among_In.
    unfold Store.entry_keys. now apply in_map.
Qed.

Lemma delete_front_distinct (front back : Cache) :
  Store.distinct_keys (front ++ back) ->
  fold_left Store.entry_delete (Store.entry_keys front) (front ++ back) = back.
Proof.
  unfold Store.distinct_keys, Store.entry_keys. intros Hnd.
  rewrite delete_all_filter, filter_app, (filter_none _ front), (filter_every _ back).
  - reflexivity.
  - intros e He. apply negb_true_iff. destruct (among (map fst front) e) eqn:E; [|reflexivity].
    apply among_In in E. rewrite map_app in Hnd.
    elim (distinct_apart _ _ _ Hnd E). now apply in_map.
  - intros e He. apply negb_false_iff, among_In. now apply in_map.
Qed.

Lemma trim_length (maxSize : nat) (c : Cache) :
  List.length (trim maxSize c) <= maxSize.
Proof.
  unfold trim, slice. destruct (Nat.ltb_spec maxSize (List.length c)) as [Hlt|Hle]; [|easy].
  simpl. rewrite Nat.sub_0_r.
  unfold Store.entry_keys. rewrite firstn_map.
  rewrite <- (firstn_skipn (List.length c - maxSize) c) at 3.
  etransitivity; [apply delete_front_length|].
  rewrite length_skipn. lia.
Qed.

Lemma trim_distinct (maxSize : nat) (c : Cache) :
  Store.distinct_keys c -> maxSize < List.length c ->
  trim maxSize c = skipn (List.length c - maxSize) c.
Proof.
  intros Hnd Hlt. unfold trim, slice.
  destruct (Nat.ltb_spec maxSize (List.length c)) as [_|Hle]; [|lia].
  simpl. rewrite Nat.sub_0_r.
  unfold Store.entry_keys. rewrite firstn_map.
  rewrite <- (firstn_skipn (List.length c - maxSize) c) at 3.
  apply delete_front_distinct. now rewrite firstn_skipn.
Qed.

Lemma trim_within (maxSize : nat) (c : Cache) :
  List.length c <= maxSize -> trim maxSize c = c.
Proof.
  intros Hle. unfold trim.
  destruct (Nat.ltb_spec maxSize (List.length c)); [lia | reflexivity].
Qed.

Lemma delete_keeps_distinct (c : Cache) (request : Request) :
  Store.distinct_keys c -> Store.distinct_keys (Store.entry_delete c request).
Proof.
  unfold Store.distinct_keys, Store.entry_keys, Store.entry_delete.
  induction c as [|e c IH]; simpl; intros Hnd; [constructor|].
  inversion Hnd as [|? ? Hnotin Hnd']; subst.
  destruct (negb (same_request (fst e) request)); simpl; [|now apply IH].
  constructor; [|now apply IH].
  intros Hin. apply Hnotin. apply in_map_iff in Hin as (x & Hx & Hin).
  apply filter_In in Hin as [Hin _]. rewrite <- Hx. now apply in_map.
Qed.

Lemma deleted_key_absent (c : Cache) (request : Request) :
  ~ In request (Store.entry_keys (Store.entry_delete c request)).
Proof.
  unfold Store.entry_keys, Store.entry_delete. intros Hin.
  apply in_map_iff in Hin as (e & He & Hin).
  apply filter_In in Hin as [_ Hne]. apply negb_true_iff in Hne.
  subst. now rewrite same_request_refl in Hne.
Qed.

Lemma put_keeps_distinct (c : Cache) (request : Request) (response : Response) :
  Store.distinct_keys c ->
  Store.distinct_keys (Store.entry_put c request response).
Proof.
  intros Hnd. unfold Store.entry_put, Store.distinct_keys, Store.entry_keys.
  rewrite map_app. apply NoDup_app.
  - now apply delete_keeps_distinct.
  - simpl. constructor; [easy | constructor].
  - simpl. intros k Hk [<-|[]]. now apply (deleted_key_absent c request).
Qed.

Lemma trim_keeps_distinct (maxSize : nat) (c : Cache) :
  Store.distinct_keys c -> Store.distinct_keys (trim maxSize c).
Proof.
  intros Hnd. destruct (Nat.lt_ge_cases maxSize (List.length c)) as [Hlt|Hle].
  - rewrite trim_distinct by assumption.
    unfold Store.distinct_keys, Store.entry_keys in *.
    rewrite <- (firstn_skipn (List.length c - maxSize) c), map_app in Hnd.
    now apply NoDup_app_remove_l in Hnd.
  - now rewrite trim_within.
Qed.

Lemma in_firstn {A} (n : nat) : forall (l : list A) (x : A),
  In x (firstn n l) -> In x l.
Proof.
  induction n as [|n IH]; intros [|a l] x; simpl; try easy.
  intros [->|H]; [now left | right; now apply IH].
Qed.

(** An entry put last is found when no entry before it has its key. *)
Lemma entry_match_last (c : Cache) (request : Request) (response : Response) :
  ~ In request (Store.entry_keys c) ->
  Store.entry_match (c ++ [(request, response)]) request = Some response.
Proof.
  unfold Store.entry_match, Store.entry_keys.
  induction c as [|e c IH]; simpl; intros Hnotin.
  - now rewrite same_request_refl.
  - destruct (same_request (fst e) request) eqn:E.
    + apply same_request_true in E. elim Hnotin. now left.
    + apply IH. intros Hin. apply Hnotin. now right.
Qed.

(** The entry just put survives the trimming to any positive size. *)
Lemma trim_keeps_newest (maxSize : nat) (c : Cache) (request : Request)
  (response : Response) :
  0 < maxSize ->
  Store.entry_match (trim maxSize (Store.entry_put c request response)) request
  = Some response.
Proof.
  intros Hpos. unfold trim.
  set (c' := Store.entry_delete c request).
  assert (Hfresh : ~ In request (Store.entry_keys c')) by apply deleted_key_absent.
  unfold Store.entry_put. fold c'.
  destruct (Nat.ltb_spec maxSize (List.length (c' ++ [(request, response)])))
    as [Hlt|Hle]; [|now apply entry_match_last].
  rewrite delete_all_filter, filter_app.
  rewrite length_app in *. simpl in *.
  unfold slice. simpl. rewrite Nat.sub_0_r.
  unfold Store.entry_keys at 2. rewrite map_app, firstn_app, length_map.
  replace (List.length c' + 1 - maxSize - List.length c') with 0 by lia.
  simpl. rewrite app_nil_r.
  assert (Hnew : among (firstn (List.length c' + 1 - maxSize) (map fst c'))
                   (request, response) = false).
  { destruct (among _ _) eqn:E; [|reflexivity].
    apply among_In in E. simpl in E. elim Hfresh.
    unfold Store.entry_keys. eapply in_firstn; eassumption. }
  rewrite Hnew. simpl. apply entry_match_last.
  intros Hin. apply Hfresh. unfold Store.entry_keys in *.
  apply in_map_iff in Hin as (e & He & Hin). apply filter_In in Hin as [Hin _].
  rewrite <- He. now apply in_map.
Qed.

End EntryFacts.

Section StorageFacts.

Lemma has_app (st1 st2 : CacheStorage) (name : string) :
  Store.has (st1 ++ st2) name = Store.has st1 name || Store.has st2 name.
Proof. unfold Store.has. apply existsb_app. Qed.

Lemma has_open (st : CacheStorage) (name : string) :
  Store.has (Store.open st name) name = true.
Proof.
  unfold Store.open. destruct (Store.has st name) eqn:E; [exact E|].
  rewrite has_app, E. simpl. now rewrite String.eqb_refl.
Qed.

Lemma open_present (st : CacheStorage) (name : string) :
  Store.has st name = true -> Store.open st name = st.
Proof. unfold Store.open. now intros ->. Qed.

Lemma entries_has (st : CacheStorage) (name : string) :
  Store.has st name = false -> Store.entries st name = [].
Proof.
  unfold Store.has, Store.entries, Store.lookup.
  induction st as [|p st IH]; simpl; [reflexivity|].
  destruct (fst p =? name)%string; simpl; [discriminate | exact IH].
Qed.

(** Opening a cache changes the entries of no cache. *)
Lemma entries_open (st : CacheStorage) (name other : string) :
  Store.entries (Store.open st name) other = Store.entries st other.
Proof.
  unfold Store.open. destruct (Store.has st name) eqn:E; [reflexivity|].
  unfold Store.entries, Store.lookup.
  induction st as [|p st IH]; simpl in *.
  - now destruct (name =? other)%string.
  - apply orb_false_iff in E as [_ E].
    destruct (fst p =? other)%string; simpl; [reflexivity | now apply IH].
Qed.

Lemma stored_open (st : CacheStorage) (name other : string) (request : Request) :
  Store.stored (Store.open st name) other request = Store.stored st other request.
Proof. unfold Store.stored. now rewrite entries_open. Qed.

Lemma stored_has (st : CacheStorage) (name : string) (request : Request)
  (response : Response) :
  Store.stored st name request = Some response -> Store.has st name = true.
Proof.
  intros H. destruct (Store.has st name) eqn:E; [reflexivity|].
  unfold Store.stored in H. now rewrite (entries_has _ _ E) in H.
Qed.

Lemma entries_update (st : CacheStorage) (name : string) (f : Cache -> Cache) :
  Store.has st name = true ->
  Store.entries (Store.update st name f) name = f (Store.entries st name).
Proof.
  unfold Store.has, Store.entries, Store.lookup, Store.update.
  induction st as [|p st IH]; simpl; [discriminate|].
  destruct (fst p =? name)%string eqn:E; simpl.
  - now rewrite E.
  - rewrite E. exact IH.
Qed.

Lemma update_update (st : CacheStorage) (name : string) (f g : Cache -> Cache) :
  Store.update (Store.update st name f) name g
  = Store.update st name (fun c => g (f c)).
Proof.
  unfold Store.update. rewrite map_map. apply map_ext. intros p.
  destruct (fst p =? name)%string eqn:E; simpl; now rewrite E.
Qed.

Lemma update_same (st : CacheStorage) (name : string) :
  Store.update st name (fun c => c) = st.
Proof.
  unfold Store.update. rewrite <- (map_id st) at 2. apply map_ext.
  intros [n c]. simpl. now destruct (n =? name)%string.
Qed.

(** A name occurs among [ns]. *)
Lemma named_In (ns : list string) (name : string) :
  named ns name = true <-> In name ns.
Proof.
  unfold named. rewrite existsb_exists. split.
  - intros (n & Hin & E). apply String.eqb_eq in E. now subst.
  - intros H. exists name. split; [easy | apply String.eqb_refl].
Qed.

Lemma delete_all_names (ns : list string) : forall st : CacheStorage,
  fold_left Store.delete ns st = filter (fun p => negb (named ns (fst p))) st.
Proof.
  induction ns as [|n ns IH]; intros st; simpl.
  - symmetry. now apply filter_every.
  - rewrite IH. unfold Store.delete. rewrite filter_twice.
    apply filter_ext. intros p. unfold named. simpl.
    now rewrite negb_orb.
Qed.

End StorageFacts.

(* ================================================================== *)
(** * Running the worker's computations *)

Section Runs.

Lemma world_eta (w : World) : mkWorld (caches w) (trace w) = w.
Proof. now destruct w. Qed.

Lemma bind_run {A B} (m : M A) (k : A -> M B) (w : World) :
  bind m k w = k (fst (m w)) (snd (m w)).
Proof. unfold bind. now destruct (m w). Qed.

Lemma calls_of {A} (m : M A) (w : World) (es : list Event) :
  trace (snd (m w)) = trace w ++ es -> calls m w = es.
Proof.
  unfold calls. intros ->.
  rewrite skipn_app, skipn_all, Nat.sub_diag. reflexivity.
Qed.

(** [Promise.all(keys.map(key => cache.delete(key)))] *)
Lemma delete_keys_run (cache : string) (ks : list Request) : forall w,
  snd (for_all (Api.cache_delete cache) ks w)
  = mkWorld
      (Store.update (caches w) cache (fun c => fold_left Store.entry_delete ks c))
      (trace w ++ map (CacheDelete cache) ks).
Proof.
  induction ks as [|k ks IH]; intros w; simpl.
  - now rewrite update_same, app_nil_r, world_eta.
  - rewrite bind_run, bind_run. simpl. rewrite IH. simpl.
    now rewrite update_update, <- app_assoc.
Qed.

(** [Promise.all(names.map(name => caches.delete(name)))] *)
Lemma delete_caches_run (ns : list string) : forall w,
  snd (for_all Api.caches_delete ns w)
  = mkWorld (fold_left Store.delete ns (caches w))
            (trace w ++ map CachesDelete ns).
Proof.
  induction ns as [|n ns IH]; intros w; simpl.
  - now rewrite app_nil_r, world_eta.
  - rewrite bind_run, bind_run. simpl. rewrite IH. simpl.
    now rewrite <- app_assoc.
Qed.

(** The keys [limitCacheSize] deletes from a cache [c]. *)
Lemma limitCacheSize_run (cacheName : string) (maxSize : nat) (w : World) :
  let c := Store.entries (caches w) cacheName in
  let opened := Store.open (caches w) cacheName in
  limitCacheSize cacheName maxSize w
  = (tt,
     mkWorld
       (if (maxSize <? List.length c)%nat
        then Store.update opened cacheName
               (fun c' => fold_left Store.entry_delete (doomed maxSize c) c')
        else opened)
       (trace w ++ CachesOpen cacheName :: CacheKeys cacheName
                     :: map (CacheDelete cacheName) (doomed maxSize c))).
Proof.
  intros c opened. unfold limitCacheSize, doomed.
  unfold Api.caches_open, Api.cache_keys. simpl.
  unfold bind at 1 2 3 4 5 6. simpl.
  rewrite entries_open. unfold Store.entry_keys. rewrite length_map.
  fold c. fold opened.
  destruct (maxSize <? List.length c)%nat.
  - rewrite bind_run. simpl. rewrite delete_keys_run. simpl.
    now rewrite <- !app_assoc.
  - simpl. now rewrite <- !app_assoc.
Qed.

(** [limitCacheSize] trims the named cache and no other. *)
Lemma limitCacheSize_entries (cacheName : string) (maxSize : nat) (w : World) :
  Store.entries (caches (snd (limitCacheSize cacheName maxSize w))) cacheName
  = trim maxSize (Store.entries (caches w) cacheName).
Proof.
  rewrite limitCacheSize_run. simpl.
  unfold trim, doomed.
  destruct (maxSize <? List.length (Store.entries (caches w) cacheName))%nat.
  - rewrite entries_update by apply has_open. now rewrite entries_open.
  - apply entries_open.
Qed.

End Runs.

(* ================================================================== *)
(** * The two strategies, path by path *)

Section Strategies.

Variable net : Network.
Variable request : Request.
Variable w : World.

(** Every path of [cacheFirst]: a hit, a miss answered by the network
    (stored when its status is 200), a miss with the network down. *)
Lemma cacheFirst_run :
  let opened := Store.open (caches w) STATIC_CACHE in
  let looked := [CachesOpen STATIC_CACHE; CacheMatch STATIC_CACHE request] in
  cacheFirst net request w =
  match Store.stored (caches w) STATIC_CACHE request with
  | Some hit => (Some hit, mkWorld opened (trace w ++ looked))
  | None =>
      match net request with
      | Resolved response =>
          if (status response =? 200)%nat then
            (Some response,
             mkWorld
               (Store.update opened STATIC_CACHE
                  (fun c => Store.entry_put c request response))
               (trace w ++ looked ++
                  [NetFetch request; CachePut STATIC_CACHE request response]))
          else
            (Some response,
             mkWorld opened (trace w ++ looked ++ [NetFetch request]))
      | Rejected =>
          (None,
           mkWorld opened
             (trace w ++ looked ++
                [NetFetch request; CacheMatch STATIC_CACHE request]))
      end
  end.
Proof.
  intros opened looked. unfold cacheFirst, Api.caches_open, Api.cache_match.
  unfold Api.fetch, Api.cache_put, clone, bind, ret, emit, get_store, set_store.
  simpl. rewrite !stored_open. fold opened.
  destruct (Store.stored (caches w) STATIC_CACHE request) as [hit|] eqn:Hs.
  - now rewrite <- !app_assoc.
  - destruct (net request) as [response|].
    + destruct (status response =? 200)%nat; simpl; now rewrite <- !app_assoc.
    + simpl. unfold opened at 1. rewrite stored_open, Hs.
      now rewrite <- !app_assoc.
Qed.

(** Every path of [networkFirst]: the network answers (a 200 is stored
    and the cache trimmed), or it is down and the cache or the offline
    page answers. *)
Lemma networkFirst_run :
  let opened := Store.open (caches w) DYNAMIC_CACHE in
  let asked := [CachesOpen DYNAMIC_CACHE; NetFetch request] in
  networkFirst net request w =
  match net request with
  | Resolved response =>
      if (status response =? 200)%nat then
        (Some response,
         snd (limitCacheSize DYNAMIC_CACHE MAX_DYNAMIC_CACHE_SIZE
                (mkWorld
                   (Store.update opened DYNAMIC_CACHE
                      (fun c => Store.entry_put c request response))
                   (trace w ++ asked ++
                      [CachePut DYNAMIC_CACHE request response]))))
      else (Some response, mkWorld opened (trace w ++ asked))
  | Rejected =>
      (match Store.stored (caches w) DYNAMIC_CACHE request with
       | Some hit => Some hit
       | None => Some offline_page_response
       end,
       mkWorld opened (trace w ++ asked ++ [CacheMatch DYNAMIC_CACHE request]))
  end.
Proof.
  intros opened asked. unfold networkFirst, Api.caches_open, Api.fetch.
  unfold Api.cache_put, Api.cache_match, clone.
  unfold bind, ret, emit, get_store, set_store.
  simpl. fold opened.
  destruct (net request) as [response|].
  - destruct (status response =? 200)%nat.
    + simpl. rewrite <- !app_assoc. simpl.
      now destruct (limitCacheSize _ _ _) as [[] w'].
    + simpl. now rewrite <- !app_assoc.
  - simpl. unfold opened at 1.
    rewrite stored_open, <- !app_assoc. simpl.
    now destruct (Store.stored (caches w) DYNAMIC_CACHE request).
Qed.

End Strategies.

(* ================================================================== *)
(** * The fetch listener *)

Section FetchListener.

Lemma contains_includes (s sub : string) :
  Js.includes s sub = true <-> Js.contains s sub.
Proof. apply includes_spec. Qed.

Lemma is_excluded_path_contains (u : URL) :
  is_excluded_path u = true <->
  exists sub, In sub excluded_substrings /\ Js.contains (pathname u) sub.
Proof.
  rewrite is_excluded_path_spec. split; intros (sub & Hin & H); exists sub;
    (split; [exact Hin | now apply contains_includes]).
Qed.

Lemma not_excluded (u : URL) :
  (forall sub, In sub excluded_substrings -> ~ Js.contains (pathname u) sub) ->
  is_excluded_path u = false.
Proof.
  intros H. destruct (is_excluded_path u) eqn:E; [|reflexivity].
  apply is_excluded_path_contains in E as (sub & Hin & Hc). now elim (H sub).
Qed.

End FetchListener.

(** C4. A request that is not a GET, or a GET whose path contains one of
    /admin, /checkout, /cart/add, /cart/update, is left to the browser: the
    fetch listener returns without answering, and the world it leaves is the
    one it found, store and trace alike (no cache is opened, read or written
    and the worker itself fetches nothing). *)
Theorem on_fetch_leaves_excluded_alone (net : Network) (request : Request)
  (w : World) :
  method request <> "GET"
  \/ (exists sub, In sub excluded_substrings
                  /\ Js.contains (pathname (url request)) sub) ->
  on_fetch net request w = (PassThrough, w).
Proof.
  intros H. unfold on_fetch.
  destruct (String.eqb_spec (method request) "GET") as [Hget|Hother]; simpl.
  - destruct H as [H|H]; [contradiction|].
    apply is_excluded_path_contains in H. now rewrite H.
  - reflexivity.
Qed.

Lemma on_fetch_leaves_excluded_alone_witness :
  on_fetch (network_answers (ok "cart")) (post "/cart") empty_world
    = (PassThrough, empty_world)
  /\ on_fetch (network_answers (ok "pay")) (get "/checkout/step-1") empty_world
    = (PassThrough, empty_world).
Proof.
  split.
  - apply on_fetch_leaves_excluded_alone. left. discriminate.
  - apply on_fetch_leaves_excluded_alone. right.
    exists "/checkout". split; [simpl; tauto|].
    now exists EmptyString, "/step-1".
Defined.

(* ================================================================== *)
(** * The message listener *)

(** C10. A message whose action is neither skipWaiting nor clearCache
    changes nothing: the listener leaves the store and the trace as they
    were, so no cache is read, written or deleted. *)
Theorem on_message_ignores_other_actions (action : string) (w : World) :
  action <> "skipWaiting" -> action <> "clearCache" ->
  on_message action w = (tt, w).
Proof.
  intros Hskip Hclear. unfold on_message.
  apply String.eqb_neq in Hskip, Hclear. now rewrite Hskip, Hclear.
Qed.

Lemma on_message_ignores_other_actions_witness :
  on_message "ping" (serve_pages (product_views 2) empty_world)
  = (tt, serve_pages (product_views 2) empty_world).
Proof.
  apply on_message_ignores_other_actions; discriminate.
Defined.

Lemma clearCache_run (w : World) :
  snd (on_message "clearCache" w)
  = mkWorld [] (trace w ++ CachesKeys :: map CachesDelete (Store.names (caches w))).
Proof.
  unfold on_message. simpl. unfold ret at 1. rewrite bind_run. simpl.
  unfold Api.caches_keys. rewrite !bind_run. simpl.
  rewrite delete_caches_run. simpl. rewrite <- app_assoc. simpl. f_equal.
  rewrite delete_all_names. apply filter_none.
  intros p Hp. apply negb_false_iff, named_In. unfold Store.names. now apply in_map.
Qed.

(** C9. When the clearCache command has run, no cache is left, whatever
    its name: nothing is stored under any name and request, and the lookup
    the strategies start with (open the cache, match the request) finds
    nothing in the static, the dynamic or any other cache. *)
Theorem clearCache_deletes_every_cache (w : World) :
  let w' := snd (on_message "clearCache" w) in
  caches w' = []
  /\ (forall name request, Store.stored (caches w') name request = None)
  /\ (forall request,
        fst (open_and_match STATIC_CACHE request w') = None
        /\ fst (open_and_match DYNAMIC_CACHE request w') = None).
Proof.
  intros w'. unfold w'. rewrite clearCache_run. simpl.
  split; [reflexivity|]. split; [reflexivity|].
  intros request. split; reflexivity.
Qed.

(* ================================================================== *)
(** * The activate listener *)

Section Activate.

Lemma is_old_cache_spec (name : string) :
  is_old_cache name = true <-> stale name.
Proof.
  unfold is_old_cache, stale, Js.startsWith.
  rewrite !andb_true_iff, !negb_true_iff, prefix_spec, !String.eqb_neq.
  tauto.
Qed.

Lemma on_activate_run (w : World) :
  snd (on_activate w)
  = mkWorld
      (filter (fun p => negb (is_old_cache (fst p))) (caches w))
      (trace w ++ CachesKeys
         :: map CachesDelete (filter is_old_cache (Store.names (caches w)))
         ++ [ClientsClaim]).
Proof.
  unfold on_activate, Api.caches_keys, Api.clients_claim.
  rewrite !bind_run. simpl. rewrite delete_caches_run. simpl.
  rewrite <- !app_assoc. simpl. f_equal.
  rewrite delete_all_names. apply filter_ext_in. intros p Hp. f_equal.
  destruct (is_old_cache (fst p)) eqn:E.
  - apply named_In, filter_In. split; [|exact E].
    unfold Store.names. now apply in_map.
  - destruct (named _ _) eqn:N; [|reflexivity].
    apply named_In, filter_In in N as [_ N]. congruence.
Qed.

Lemma lookup_kept (keep : string -> bool) (st : CacheStorage) (name : string) :
  keep name = true ->
  Store.lookup (filter (fun p => keep (fst p)) st) name = Store.lookup st name.
Proof.
  intros Hk. unfold Store.lookup. induction st as [|p st IH]; simpl; [reflexivity|].
  destruct (String.eqb_spec (fst p) name) as [E|E].
  - rewrite E, Hk. simpl. rewrite E. now rewrite String.eqb_refl.
  - destruct (keep (fst p)); simpl; [|exact IH].
    apply String.eqb_neq in E. now rewrite E.
Qed.

End Activate.

(** C8. Activation deletes exactly the stale caches: a cache that exists
    is gone afterwards if and only if its name starts with shopify-theme-
    and is neither the current static nor the current dynamic name.  Every
    other cache, the two current ones and those without the prefix, is
    still there with the contents it had, and no stale name can be
    enumerated any more. *)
Theorem on_activate_deletes_stale_caches (w : World) :
  let before := caches w in
  let after := store_after on_activate w in
  (forall name, In name (Store.names before) ->
     (~ In name (Store.names after) <-> stale name))
  /\ (forall name, ~ stale name ->
        Store.lookup after name = Store.lookup before name)
  /\ (forall name, In name (Store.names after) ->
        In name (Store.names before) /\ ~ stale name).
Proof.
  intros before after.
  assert (Hafter : after = filter (fun p => negb (is_old_cache (fst p))) before).
  { unfold after, store_after. now rewrite on_activate_run. }
  assert (Hnames : forall name, In name (Store.names after) <->
                     In name (Store.names before) /\ ~ stale name).
  { intros name. rewrite Hafter. unfold Store.names.
    rewrite !in_map_iff. split.
    - intros (p & <- & Hp). apply filter_In in Hp as [Hin Hk].
      split; [now exists p|].
      rewrite <- is_old_cache_spec. now apply negb_true_iff, not_true_iff_false in Hk.
    - intros ((p & <- & Hin) & Hns). exists p. split; [reflexivity|].
      apply filter_In. split; [exact Hin|].
      apply negb_true_iff, not_true_iff_false. now rewrite is_old_cache_spec. }
  split; [|split].
  - intros name Hin. rewrite Hnames. split.
    + intros Hgone. destruct (is_old_cache name) eqn:E.
      * now apply is_old_cache_spec.
      * elim Hgone. split; [exact Hin|].
        rewrite <- is_old_cache_spec. congruence.
    + tauto.
  - intros name Hns. rewrite Hafter.
    apply (lookup_kept (fun n => negb (is_old_cache n))).
    apply negb_true_iff, not_true_iff_false. now rewrite is_old_cache_spec.
  - intros name. apply Hnames.
Qed.

(* ================================================================== *)
(** * cacheFirst *)

(** C5. When the static cache holds an entry for the request, [cacheFirst]
    answers with that entry.  Its only calls are opening the static cache
    and the lookup: the network is not asked and nothing is written, with
    whatever network, and the store stays as it was. *)
Theorem cacheFirst_serves_stored_entry (net : Network) (request : Request)
  (hit : Response) (w : World) :
  Store.stored (caches w) STATIC_CACHE request = Some hit ->
  fst (cacheFirst net request w) = Some hit
  /\ store_after (cacheFirst net request) w = caches w
  /\ calls (cacheFirst net request) w
     = [CachesOpen STATIC_CACHE; CacheMatch STATIC_CACHE request]
  /\ existsb is_network_call (calls (cacheFirst net request) w) = false
  /\ existsb is_cache_write (calls (cacheFirst net request) w) = false.
Proof.
  intros Hhit.
  assert (Hcalls : calls (cacheFirst net request) w
                   = [CachesOpen STATIC_CACHE; CacheMatch STATIC_CACHE request]).
  { apply calls_of. now rewrite cacheFirst_run, Hhit. }
  unfold store_after. rewrite Hcalls, cacheFirst_run, Hhit. simpl.
  repeat split. apply open_present. eapply stored_has; eassumption.
Qed.

(** The network is down and the static cache has no entry: the promise
    [cacheFirst] returns settles to [undefined].  The promise of the second
    lookup is an object, hence truthy, and [||] never reaches the 503
    response. *)
Lemma cacheFirst_network_down (net : Network) (request : Request) (w : World) :
  net request = Rejected ->
  Store.stored (caches w) STATIC_CACHE request = None ->
  fst (cacheFirst net request w) = None.
Proof. intros Hnet Hmiss. now rewrite cacheFirst_run, Hmiss, Hnet. Qed.

(** C1, at the request GET /assets/app.css with an empty store and the
    network down: [cacheFirst] settles to [undefined], not to a response
    with status 503, and that is what the fetch listener answers with. *)
Theorem cacheFirst_network_down_answers_undefined :
  fst (cacheFirst network_down (get "/assets/app.css") empty_world) = None
  /\ fst (on_fetch network_down (get "/assets/app.css") empty_world)
     = RespondWith None.
Proof. split; reflexivity. Qed.

(* ================================================================== *)
(** * networkFirst *)

(** C3. The network is down and the dynamic cache has no entry for the
    request: [networkFirst] answers with a response of status 503, status
    text Service Unavailable and content type text/html, whose body holds
    the button that reloads the page. *)
Theorem networkFirst_offline_page (net : Network) (request : Request)
  (w : World) :
  net request = Rejected ->
  Store.stored (caches w) DYNAMIC_CACHE request = None ->
  exists page,
    fst (networkFirst net request w) = Some page
    /\ status page = 503
    /\ statusText page = "Service Unavailable"
    /\ Headers_get (headers page) "Content-Type" = Some "text/html"
    /\ Js.contains (body page) retry_button.
Proof.
  intros Hnet Hmiss. exists offline_page_response.
  rewrite networkFirst_run, Hnet, Hmiss. simpl.
  repeat split. apply contains_includes. vm_compute. reflexivity.
Qed.

Lemma networkFirst_offline_page_witness :
  exists page,
    fst (networkFirst network_down (get "/products/widget") empty_world)
      = Some page
    /\ status page = 503
    /\ statusText page = "Service Unavailable"
    /\ Headers_get (headers page) "Content-Type" = Some "text/html"
    /\ Js.contains (body page) retry_button.
Proof.
  apply networkFirst_offline_page; reflexivity.
Defined.

Lemma cacheFirst_serves_stored_entry_witness :
  let stocked :=
    snd (cacheFirst (network_answers (ok "body { margin: 0 }"))
           (get "/assets/app.css") empty_world) in
  fst (cacheFirst network_down (get "/assets/app.css") stocked)
    = Some (ok "body { margin: 0 }")
  /\ store_after (cacheFirst network_down (get "/assets/app.css")) stocked
     = caches stocked
  /\ calls (cacheFirst network_down (get "/assets/app.css")) stocked
     = [CachesOpen STATIC_CACHE; CacheMatch STATIC_CACHE (get "/assets/app.css")]
  /\ existsb is_network_call
       (calls (cacheFirst network_down (get "/assets/app.css")) stocked) = false
  /\ existsb is_cache_write
       (calls (cacheFirst network_down (get "/assets/app.css")) stocked) = false.
Proof.
  apply cacheFirst_serves_stored_entry. reflexivity.
Defined.

(* ================================================================== *)
(** * What the network answers is stored only with status 200 *)

Section Writes.

Variable net : Network.
Variable request : Request.
Variable response : Response.
Variable w : World.
Hypothesis answered : net request = Resolved response.

Lemma stored_after_put (st : CacheStorage) (name : string) :
  Store.has st name = true ->
  Store.stored
    (Store.update st name (fun c => Store.entry_put c request response))
    name request
  = Some response.
Proof.
  intros Hhas. unfold Store.stored. rewrite entries_update by assumption.
  apply entry_match_last, deleted_key_absent.
Qed.

Lemma cacheFirst_miss_answered :
  Store.stored (caches w) STATIC_CACHE request = None ->
  fst (cacheFirst net request w) = Some response
  /\ existsb is_cache_put (calls (cacheFirst net request) w)
     = (status response =? 200)%nat
  /\ (status response = 200 ->
      Store.stored (store_after (cacheFirst net request) w) STATIC_CACHE request
      = Some response)
  /\ (status response <> 200 ->
      store_after (cacheFirst net request) w
      = Store.open (caches w) STATIC_CACHE).
Proof.
  intros Hmiss. unfold store_after.
  destruct (Nat.eqb_spec (status response) 200) as [E|E].
  - assert (Hrun := cacheFirst_run net request w). simpl in Hrun.
    rewrite Hmiss, answered in Hrun. rewrite E in Hrun. simpl in Hrun.
    erewrite calls_of by (rewrite Hrun; reflexivity).
    rewrite Hrun. simpl. repeat split; try easy.
    intros _. apply stored_after_put, has_open.
  - assert (Hrun := cacheFirst_run net request w). simpl in Hrun.
    rewrite Hmiss, answered in Hrun.
    apply Nat.eqb_neq in E. rewrite E in Hrun. apply Nat.eqb_neq in E.
    erewrite calls_of by (rewrite Hrun; reflexivity).
    rewrite Hrun. simpl. repeat split; easy.
Qed.

(** The dynamic cache after [networkFirst]: a 200 is put and the cache
    trimmed to 50 entries; otherwise the entries are the ones before. *)
Lemma networkFirst_entries :
  Store.entries (store_after (networkFirst net request) w) DYNAMIC_CACHE
  = if (status response =? 200)%nat
    then trim MAX_DYNAMIC_CACHE_SIZE
           (Store.entry_put (Store.entries (caches w) DYNAMIC_CACHE)
              request response)
    else Store.entries (caches w) DYNAMIC_CACHE.
Proof.
  unfold store_after. rewrite networkFirst_run, answered.
  destruct (status response =? 200)%nat; simpl.
  - rewrite limitCacheSize_entries. simpl.
    rewrite entries_update by apply has_open. now rewrite entries_open.
  - apply entries_open.
Qed.

Lemma networkFirst_answered :
  fst (networkFirst net request w) = Some response
  /\ existsb is_cache_put (calls (networkFirst net request) w)
     = (status response =? 200)%nat
  /\ (status response = 200 ->
      Store.stored (store_after (networkFirst net request) w)
        DYNAMIC_CACHE request
      = Some response)
  /\ (status response <> 200 ->
      store_after (networkFirst net request) w
      = Store.open (caches w) DYNAMIC_CACHE).
Proof.
  split; [|split; [|split]].
  - rewrite networkFirst_run, answered.
    now destruct (status response =? 200)%nat.
  - assert (Hrun := networkFirst_run net request w). simpl in Hrun.
    rewrite answered in Hrun.
    destruct (status response =? 200)%nat.
    + rewrite limitCacheSize_run in Hrun. simpl in Hrun.
      erewrite calls_of.
      2:{ rewrite Hrun. simpl. rewrite <- app_assoc. reflexivity. }
      simpl. reflexivity.
    + erewrite calls_of by (rewrite Hrun; reflexivity). reflexivity.
  - intros E. unfold Store.stored. rewrite networkFirst_entries.
    apply Nat.eqb_eq in E. rewrite E.
    apply trim_keeps_newest. unfold MAX_DYNAMIC_CACHE_SIZE. lia.
  - intros E. unfold store_after. rewrite networkFirst_run, answered.
    apply Nat.eqb_neq in E. now rewrite E.
Qed.

End Writes.

(** C6. In both strategies a response of the network is put into the
    cache if and only if its status is 200, and the caller gets the
    response of the network either way.  With status 200 the cache then
    holds the response under the request; with any other status the store
    is the one before, up to the opening of the strategy's cache.
    ([cacheFirst] asks the network only when its cache has no entry.) *)
Theorem network_response_stored_iff_200 (net : Network) (request : Request)
  (response : Response) (w : World) :
  net request = Resolved response ->
  (Store.stored (caches w) STATIC_CACHE request = None ->
   fst (cacheFirst net request w) = Some response
   /\ existsb is_cache_put (calls (cacheFirst net request) w)
      = (status response =? 200)%nat
   /\ (status response = 200 ->
       Store.stored (store_after (cacheFirst net request) w) STATIC_CACHE request
       = Some response)
   /\ (status response <> 200 ->
       store_after (cacheFirst net request) w
       = Store.open (caches w) STATIC_CACHE))
  /\ (fst (networkFirst net request w) = Some response
      /\ existsb is_cache_put (calls (networkFirst net request) w)
         = (status response =? 200)%nat
      /\ (status response = 200 ->
          Store.stored (store_after (networkFirst net request) w)
            DYNAMIC_CACHE request
          = Some response)
      /\ (status response <> 200 ->
          store_after (networkFirst net request) w
          = Store.open (caches w) DYNAMIC_CACHE)).
Proof.
  intros Hnet. split.
  - now apply cacheFirst_miss_answered.
  - now apply networkFirst_answered.
Qed.

Lemma network_response_stored_iff_200_witness :
  (fst (cacheFirst (network_answers not_found) (get "/assets/app.css") empty_world)
     = Some not_found
   /\ store_after (cacheFirst (network_answers not_found) (get "/assets/app.css"))
        empty_world
      = Store.open [] STATIC_CACHE)
  /\ (fst (networkFirst (network_answers (ok "widget")) (get "/products/widget")
             empty_world)
        = Some (ok "widget")
      /\ Store.stored
           (store_after
              (networkFirst (network_answers (ok "widget")) (get "/products/widget"))
              empty_world)
           DYNAMIC_CACHE (get "/products/widget")
         = Some (ok "widget")).
Proof.
  split.
  - destruct (network_response_stored_iff_200
                (network_answers not_found) (get "/assets/app.css") empty_world
                eq_refl) as [Hstatic _].
    destruct (Hstatic eq_refl) as (Hanswer & _ & _ & Hother).
    split; [exact Hanswer | apply Hother; discriminate].
  - destruct (network_response_stored_iff_200
                (network_answers (ok "widget")) (get "/products/widget") empty_world
                eq_refl) as [_ (Hanswer & _ & Hok & _)].
    split; [exact Hanswer | apply Hok; reflexivity].
Defined.

(* ================================================================== *)
(** * The bound on the dynamic cache *)

Section Eviction.

Lemma networkFirst_keeps_distinct (net : Network) (request : Request) (w : World) :
  Store.distinct_keys (Store.entries (caches w) DYNAMIC_CACHE) ->
  Store.distinct_keys
    (Store.entries (store_after (networkFirst net request) w) DYNAMIC_CACHE).
Proof.
  intros Hnd. destruct (net request) as [response|] eqn:Hnet.
  - rewrite (networkFirst_entries net request w Hnet).
    destruct (status response =? 200)%nat; [|exact Hnd].
    now apply trim_keeps_distinct, put_keeps_distinct.
  - unfold store_after. rewrite networkFirst_run, Hnet. simpl.
    now rewrite entries_open.
Qed.

Lemma serve_pages_distinct (steps : list (Request * Response)) :
  forall w,
    Store.distinct_keys (Store.entries (caches w) DYNAMIC_CACHE) ->
    Store.distinct_keys
      (Store.entries (caches (serve_pages steps w)) DYNAMIC_CACHE).
Proof.
  induction steps as [|[request response] steps IH]; intros w Hnd; simpl.
  - exact Hnd.
  - apply IH. now apply networkFirst_keeps_distinct.
Qed.

End Eviction.

(** C2, at fifty-one views of distinct product pages, each answered with
    status 200, from an empty store.  Neither [cache.put] nor
    [limitCacheSize] is awaited: when [limitCacheSize] lists the keys
    before the put has landed it finds at most fifty and deletes nothing,
    and the put then adds the fifty-first entry.  The dynamic cache ends
    with 51 entries, the oldest among them. *)
Theorem dynamic_cache_holds_51_when_put_lands_last :
  let st := caches (serve_pages_put_last (product_views 51) empty_world) in
  List.length (Store.entries st DYNAMIC_CACHE) = 51
  /\ Store.entry_keys (Store.entries st DYNAMIC_CACHE)
     = map product (seq 0 51).
Proof. vm_compute. split; reflexivity. Qed.

(** The same fifty-one views in the run where every put lands before the
    keys are listed: the first page has been evicted and the fifty after it
    are kept, oldest first. *)
Example fifty_one_views :
  Store.entry_keys
    (Store.entries (caches (serve_pages (product_views 51) empty_world))
       DYNAMIC_CACHE)
  = map product (seq 1 50).
Proof. vm_compute. reflexivity. Qed.

(** Putting a request again makes its entry the newest one. *)
Example put_again_moves_to_the_end :
  Store.entry_keys
    (Store.entries
       (caches (serve_pages (product_views 3 ++ [(product 0, ok "again")])
                  empty_world))
       DYNAMIC_CACHE)
  = [product 1; product 2; product 0].
Proof. vm_compute. reflexivity. Qed.

(* ================================================================== *)
(** * Dispatch by extension *)

(** C7. A GET request whose path contains none of the excluded substrings
    is dispatched on the end of its path, compared as written (case
    matters): a path ending in a dot and one of css, js, woff, woff2, ttf,
    eot, or in a dot and one of jpg, jpeg, png, gif, webp, svg, avif, is
    answered by [cacheFirst]; every other path is answered by
    [networkFirst]. *)
Theorem on_fetch_dispatches_by_extension (net : Network) (request : Request)
  (w : World) :
  method request = "GET" ->
  (forall sub, In sub excluded_substrings ->
               ~ Js.contains (pathname (url request)) sub) ->
  (has_extension (pathname (url request)) static_extensions ->
   on_fetch net request w = respondWith (cacheFirst net request) w)
  /\ (has_extension (pathname (url request)) image_extensions ->
      on_fetch net request w = respondWith (cacheFirst net request) w)
  /\ (~ has_extension (pathname (url request)) static_extensions ->
      ~ has_extension (pathname (url request)) image_extensions ->
      on_fetch net request w = respondWith (networkFirst net request) w).
Proof.
  intros Hget Hfree. unfold on_fetch.
  rewrite Hget, (not_excluded _ Hfree). simpl.
  destruct (isStaticAsset (url request)) eqn:Hs;
    destruct (isImage (url request)) eqn:Hi;
    repeat split; intros; try reflexivity.
  all: try (apply isStaticAsset_spec in Hs); try (apply isImage_spec in Hi);
    try contradiction.
  all: match goal with
       | H : has_extension _ static_extensions |- _ =>
           apply isStaticAsset_spec in H; congruence
       | H : has_extension _ image_extensions |- _ =>
           apply isImage_spec in H; congruence
       end.
Qed.

Section DispatchSamples.

(** A path that contains none of the excluded substrings, by running
    [includes] on it. *)
Lemma free_of_excluded (path : string) :
  forallb (fun sub => negb (Js.includes path sub)) excluded_substrings = true ->
  forall sub, In sub excluded_substrings -> ~ Js.contains path sub.
Proof.
  intros Hall sub Hin Hc. rewrite forallb_forall in Hall.
  apply Hall in Hin. apply contains_includes in Hc.
  now rewrite Hc in Hin.
Qed.

Lemma has_extension_intro (front ext : string) (exts : list string) :
  In ext exts -> has_extension (front ++ "." ++ ext) exts.
Proof. intros Hin. exists ext. split; [exact Hin | now exists front]. Qed.

End DispatchSamples.

Lemma on_fetch_dispatches_by_extension_witness :
  on_fetch network_down (get "/assets/app.css") empty_world
    = respondWith (cacheFirst network_down (get "/assets/app.css")) empty_world
  /\ on_fetch network_down (get "/files/logo.png") empty_world
     = respondWith (cacheFirst network_down (get "/files/logo.png")) empty_world
  /\ on_fetch network_down (get "/products/widget") empty_world
     = respondWith (networkFirst network_down (get "/products/widget")) empty_world.
Proof.
  split; [|split].
  - destruct (@on_fetch_dispatches_by_extension network_down
                (get "/assets/app.css") empty_world eq_refl
                (@free_of_excluded "/assets/app.css" eq_refl))
      as (Hstatic & _ & _).
    apply Hstatic, (@has_extension_intro "/assets/app" "css"). simpl; tauto.
  - destruct (@on_fetch_dispatches_by_extension network_down
                (get "/files/logo.png") empty_world eq_refl
                (@free_of_excluded "/files/logo.png" eq_refl))
      as (_ & Himage & _).
    apply Himage, (@has_extension_intro "/files/logo" "png"). simpl; tauto.
  - destruct (@on_fetch_dispatches_by_extension network_down
                (get "/products/widget") empty_world eq_refl
                (@free_of_excluded "/products/widget" eq_refl))
      as (_ & _ & Hpage).
    apply Hpage; intros H.
    + apply (isStaticAsset_spec (url (get "/products/widget"))) in H. discriminate H.
    + apply (isImage_spec (url (get "/products/widget"))) in H. discriminate H.
Defined.

(** The extension is compared as written: an upper-case extension is not
    an image, and the request is answered by [networkFirst]. *)
Example upper_case_extension_is_a_page (net : Network) (w : World) :
  isImage (url (get "/files/photo.JPG")) = false
  /\ on_fetch net (get "/files/photo.JPG") w
     = respondWith (networkFirst net (get "/files/photo.JPG")) w.
Proof. split; reflexivity. Qed.

(** The dot belongs to the extension: a path that ends in the letters js
    without a dot before them is a page. *)
Example extension_needs_its_dot (net : Network) (w : World) :
  isStaticAsset (url (get "/pages/nodejs")) = false
  /\ on_fetch net (get "/pages/nodejs") w
     = respondWith (networkFirst net (get "/pages/nodejs")) w.
Proof. split; reflexivity. Qed.

(** An excluded path is left alone whatever its extension. *)
Example excluded_before_extension (net : Network) (w : World) :
  on_fetch net (get "/admin/theme.css") w = (PassThrough, w).
Proof. reflexivity. Qed.

(** A stylesheet answered with 200 is stored; asked again with the network
    down it is served from the cache, body unchanged. *)
Example stylesheet_survives_network_failure :
  let first := cacheFirst (network_answers (ok "body { margin: 0 }"))
                 (get "/assets/app.css") empty_world in
  fst first = Some (ok "body { margin: 0 }")
  /\ fst (cacheFirst network_down (get "/assets/app.css") (snd first))
     = Some (ok "body { margin: 0 }").
Proof. split; reflexivity. Qed.

(** Activation with the caches of two versions and a foreign cache: the
    caches of the old version go, the others stay. *)
Example rotation_from_v0 :
  Store.names
    (store_after on_activate
       (mkWorld
          [("shopify-theme-v0-static", [(get "/a.css", ok "a")]);
           ("shopify-theme-v0-dynamic", []);
           ("shopify-theme-v1-static", [(get "/b.css", ok "b")]);
           ("other-app", []);
           ("shopify-theme-v1-dynamic", [])]
          []))
  = ["shopify-theme-v1-static"; "other-app"; "shopify-theme-v1-dynamic"].
Proof. reflexivity. Qed.

(* ================================================================== *)
(** * More on the store: other caches, names, other requests *)

Section FrameFacts.

Lemma entries_update_other (st : CacheStorage) (name other : string)
  (f : Cache -> Cache) :
  name <> other ->
  Store.entries (Store.update st name f) other = Store.entries st other.
Proof.
  intros Hne. unfold Store.entries, Store.lookup, Store.update.
  induction st as [|p st IH]; simpl; [reflexivity|].
  destruct (String.eqb_spec (fst p) name) as [E|E]; simpl.
  - destruct (String.eqb_spec (fst p) other) as [E'|E']; [congruence | exact IH].
  - destruct (fst p =? other)%string; [reflexivity | exact IH].
Qed.

Lemma names_update (st : CacheStorage) (name : string) (f : Cache -> Cache) :
  Store.names (Store.update st name f) = Store.names st.
Proof.
  unfold Store.names, Store.update. rewrite map_map. apply map_ext.
  intros p. now destruct (fst p =? name)%string.
Qed.

Lemma names_open (st : CacheStorage) (name other : string) :
  In other (Store.names (Store.open st name)) ->
  In other (Store.names st) \/ other = name.
Proof.
  unfold Store.open, Store.names. destruct (Store.has st name); [now left|].
  rewrite map_app, in_app_iff. simpl. intuition.
Qed.

Lemma has_names (st : CacheStorage) (name : string) :
  Store.has st name = true <-> In name (Store.names st).
Proof.
  unfold Store.has, Store.names. rewrite existsb_exists, in_map_iff. split.
  - intros (p & Hin & E). apply String.eqb_eq in E. now exists p.
  - intros (p & E & Hin). exists p. split; [easy | now apply String.eqb_eq].
Qed.

(** The entries of a cache after some caches were deleted by name. *)
Lemma entries_filter (keep : string -> bool) (st : CacheStorage) (name : string) :
  Store.entries (filter (fun p => keep (fst p)) st) name
  = if keep name then Store.entries st name else [].
Proof.
  unfold Store.entries, Store.lookup.
  induction st as [|[n c] st IH]; simpl; [now destruct (keep name)|].
  destruct (String.eqb_spec n name) as [->|E].
  - destruct (keep name) eqn:K; simpl.
    + now rewrite String.eqb_refl.
    + exact IH.
  - destruct (keep n); simpl; [|exact IH].
    apply String.eqb_neq in E. now rewrite E.
Qed.

(** Putting one request leaves what is stored for another. *)
Lemma entry_match_put_other (c : Cache) (request other : Request)
  (response : Response) :
  other <> request ->
  Store.entry_match (Store.entry_put c other response) request
  = Store.entry_match c request.
Proof.
  intros Hne. unfold Store.entry_match, Store.entry_put, Store.entry_delete.
  induction c as [|e c IH]; simpl.
  - destruct (same_request other request) eqn:E; [|reflexivity].
    apply same_request_true in E. contradiction.
  - destruct (same_request (fst e) other) eqn:Eo; simpl.
    + apply same_request_true in Eo.
      destruct (same_request (fst e) request) eqn:Er; [|exact IH].
      apply same_request_true in Er. congruence.
    + destruct (same_request (fst e) request); [reflexivity | exact IH].
Qed.

Lemma in_put (c : Cache) (request : Request) (response : Response)
  (e : Request * Response) :
  In e (Store.entry_put c request response) ->
  In e c \/ e = (request, response).
Proof.
  unfold Store.entry_put, Store.entry_delete. rewrite in_app_iff. simpl.
  intros [H|[H|[]]]; [left | right; now symmetry].
  now apply filter_In in H.
Qed.

Lemma in_trim (maxSize : nat) (c : Cache) (e : Request * Response) :
  In e (trim maxSize c) -> In e c.
Proof.
  unfold trim. destruct (maxSize <? List.length c)%nat; [|easy].
  rewrite delete_all_filter. intros H. now apply filter_In in H.
Qed.

Lemma static_is_not_dynamic : STATIC_CACHE <> DYNAMIC_CACHE.
Proof. discriminate. Qed.

End FrameFacts.

(* ================================================================== *)
(** * limitCacheSize on any cache and any bound *)

Section Limit.

Variable cacheName : string.
Variable maxSize : nat.
Variable w : World.

Lemma limitCacheSize_other (other : string) :
  cacheName <> other ->
  Store.entries (caches (snd (limitCacheSize cacheName maxSize w))) other
  = Store.entries (caches w) other.
Proof.
  intros Hne. rewrite limitCacheSize_run. simpl.
  destruct (maxSize <? List.length (Store.entries (caches w) cacheName))%nat.
  - rewrite entries_update_other by assumption. apply entries_open.
  - apply entries_open.
Qed.

Lemma limitCacheSize_names (name : string) :
  In name (Store.names (caches (snd (limitCacheSize cacheName maxSize w)))) ->
  In name (Store.names (caches w)) \/ name = cacheName.
Proof.
  rewrite limitCacheSize_run. simpl.
  destruct (maxSize <? List.length (Store.entries (caches w) cacheName))%nat.
  - rewrite names_update. apply names_open.
  - apply names_open.
Qed.

Lemma limitCacheSize_calls :
  calls (limitCacheSize cacheName maxSize) w
  = CachesOpen cacheName :: CacheKeys cacheName
      :: map (CacheDelete cacheName)
           (doomed maxSize (Store.entries (caches w) cacheName)).
Proof. apply calls_of. now rewrite limitCacheSize_run. Qed.

End Limit.

(** X1. [limitCacheSize] on any cache name and any bound: afterwards the
    named cache has at most [maxSize] entries and every other cache has the
    entries it had.  A cache already within the bound (one that did not
    exist is created empty) keeps its entries, and nothing is deleted: the
    only calls are opening the cache and listing its keys. *)
Theorem limitCacheSize_bounds_named_cache (cacheName : string) (maxSize : nat)
  (w : World) :
  let before := caches w in
  let after := store_after (limitCacheSize cacheName maxSize) w in
  List.length (Store.entries after cacheName) <= maxSize
  /\ Store.has after cacheName = true
  /\ (forall other, other <> cacheName ->
        Store.entries after other = Store.entries before other)
  /\ (List.length (Store.entries before cacheName) <= maxSize ->
      Store.entries after cacheName = Store.entries before cacheName
      /\ calls (limitCacheSize cacheName maxSize) w
         = [CachesOpen cacheName; CacheKeys cacheName]).
Proof.
  intros before after. unfold after, before, store_after.
  split; [|split; [|split]].
  - rewrite limitCacheSize_entries. apply trim_length.
  - rewrite limitCacheSize_run. simpl.
    destruct (maxSize <? _)%nat; [rewrite has_names, names_update, <- has_names|];
      apply has_open.
  - intros other Hne. apply limitCacheSize_other. congruence.
  - intros Hle. split.
    + rewrite limitCacheSize_entries. now apply trim_within.
    + rewrite limitCacheSize_calls. unfold doomed.
      destruct (Nat.ltb_spec maxSize (List.length (Store.entries (caches w) cacheName)));
        [lia | reflexivity].
Qed.

(** X2. Running [limitCacheSize] a second time changes nothing: the named
    cache has the entries the first run left, and the second run deletes
    no key. *)
Theorem limitCacheSize_twice (cacheName : string) (maxSize : nat) (w : World) :
  let once := snd (limitCacheSize cacheName maxSize w) in
  Store.entries (store_after (limitCacheSize cacheName maxSize) once) cacheName
  = Store.entries (caches once) cacheName
  /\ calls (limitCacheSize cacheName maxSize) once
     = [CachesOpen cacheName; CacheKeys cacheName].
Proof.
  intros once.
  assert (Hle : List.length (Store.entries (caches once) cacheName) <= maxSize).
  { unfold once. rewrite limitCacheSize_entries. apply trim_length. }
  unfold store_after. split.
  - rewrite limitCacheSize_entries. now apply trim_within.
  - rewrite limitCacheSize_calls. unfold doomed.
    destruct (Nat.ltb_spec maxSize (List.length (Store.entries (caches once) cacheName)));
      [lia | reflexivity].
Qed.

(** A bound of zero empties the cache, and a cache of three trimmed to two
    loses its oldest entry. *)
Example limitCacheSize_small_bounds :
  let three := serve_pages (product_views 3) empty_world in
  Store.entries (store_after (limitCacheSize DYNAMIC_CACHE 0) three) DYNAMIC_CACHE
    = []
  /\ Store.entry_keys
       (Store.entries (store_after (limitCacheSize DYNAMIC_CACHE 2) three)
          DYNAMIC_CACHE)
     = [product 1; product 2].
Proof. split; reflexivity. Qed.

(* ================================================================== *)
(** * The strategies: what they store, where, and what they call *)

Section StrategyEffects.

Variable net : Network.
Variable request : Request.
Variable w : World.

Lemma respondWith_world (strategy : M (option Response)) :
  snd (respondWith strategy w) = snd (strategy w).
Proof. unfold respondWith. rewrite bind_run. reflexivity. Qed.

Lemma respondWith_answer (strategy : M (option Response)) :
  fst (respondWith strategy w) = RespondWith (fst (strategy w)).
Proof. unfold respondWith. rewrite bind_run. reflexivity. Qed.

(** The static cache after [cacheFirst]: it gains an entry on a miss
    answered with status 200 and is unchanged otherwise. *)
Lemma cacheFirst_static :
  Store.entries (store_after (cacheFirst net request) w) STATIC_CACHE
  = match Store.stored (caches w) STATIC_CACHE request, net request with
    | None, Resolved response =>
        if (status response =? 200)%nat
        then Store.entry_put (Store.entries (caches w) STATIC_CACHE)
               request response
        else Store.entries (caches w) STATIC_CACHE
    | _, _ => Store.entries (caches w) STATIC_CACHE
    end.
Proof.
  unfold store_after. rewrite cacheFirst_run. simpl.
  destruct (Store.stored (caches w) STATIC_CACHE request);
    [apply entries_open|].
  destruct (net request) as [response|]; [|apply entries_open].
  destruct (status response =? 200)%nat; simpl; [|apply entries_open].
  rewrite entries_update by apply has_open. now rewrite entries_open.
Qed.

Lemma cacheFirst_other (name : string) :
  name <> STATIC_CACHE ->
  Store.entries (store_after (cacheFirst net request) w) name
  = Store.entries (caches w) name.
Proof.
  intros Hne. unfold store_after. rewrite cacheFirst_run. simpl.
  destruct (Store.stored (caches w) STATIC_CACHE request);
    [apply entries_open|].
  destruct (net request) as [response|]; [|apply entries_open].
  destruct (status response =? 200)%nat; simpl; [|apply entries_open].
  rewrite entries_update_other by congruence. apply entries_open.
Qed.

Lemma cacheFirst_names (name : string) :
  In name (Store.names (store_after (cacheFirst net request) w)) ->
  In name (Store.names (caches w)) \/ name = STATIC_CACHE.
Proof.
  unfold store_after. rewrite cacheFirst_run. simpl.
  destruct (Store.stored (caches w) STATIC_CACHE request);
    [apply names_open|].
  destruct (net request) as [response|]; [|apply names_open].
  destruct (status response =? 200)%nat; simpl; [|apply names_open].
  rewrite names_update. apply names_open.
Qed.

(** The dynamic cache after [networkFirst], whatever the network does. *)
Lemma networkFirst_dynamic :
  Store.entries (store_after (networkFirst net request) w) DYNAMIC_CACHE
  = match net request with
    | Resolved response =>
        if (status response =? 200)%nat
        then trim MAX_DYNAMIC_CACHE_SIZE
               (Store.entry_put (Store.entries (caches w) DYNAMIC_CACHE)
                  request response)
        else Store.entries (caches w) DYNAMIC_CACHE
    | Rejected => Store.entries (caches w) DYNAMIC_CACHE
    end.
Proof.
  destruct (net request) as [response|] eqn:Hnet.
  - now apply networkFirst_entries.
  - unfold store_after. rewrite networkFirst_run, Hnet. apply entries_open.
Qed.

Lemma networkFirst_other (name : string) :
  name <> DYNAMIC_CACHE ->
  Store.entries (store_after (networkFirst net request) w) name
  = Store.entries (caches w) name.
Proof.
  intros Hne. unfold store_after. rewrite networkFirst_run.
  destruct (net request) as [response|]; [|apply entries_open].
  destruct (status response =? 200)%nat; simpl; [|apply entries_open].
  rewrite limitCacheSize_other by congruence. simpl.
  rewrite entries_update_other by congruence. apply entries_open.
Qed.

Lemma networkFirst_names (name : string) :
  In name (Store.names (store_after (networkFirst net request) w)) ->
  In name (Store.names (caches w)) \/ name = DYNAMIC_CACHE.
Proof.
  unfold store_after. rewrite networkFirst_run.
  destruct (net request) as [response|]; [|apply names_open].
  destruct (status response =? 200)%nat; simpl; [|apply names_open].
  intros H. apply limitCacheSize_names in H as [H|H]; [|now right].
  simpl in H. rewrite names_update in H. now apply names_open.
Qed.

(** The calls of [cacheFirst], path by path. *)
Lemma cacheFirst_calls :
  calls (cacheFirst net request) w
  = [CachesOpen STATIC_CACHE; CacheMatch STATIC_CACHE request]
    ++ match Store.stored (caches w) STATIC_CACHE request, net request with
       | Some _, _ => []
       | None, Resolved response =>
           NetFetch request
             :: (if (status response =? 200)%nat
                 then [CachePut STATIC_CACHE request response]
                 else [])
       | None, Rejected => [NetFetch request; CacheMatch STATIC_CACHE request]
       end.
Proof.
  apply calls_of. rewrite cacheFirst_run. simpl.
  destruct (Store.stored (caches w) STATIC_CACHE request); [reflexivity|].
  destruct (net request) as [response|]; [|reflexivity].
  now destruct (status response =? 200)%nat.
Qed.

(** The calls of [networkFirst], path by path. *)
Lemma networkFirst_calls :
  calls (networkFirst net request) w
  = [CachesOpen DYNAMIC_CACHE; NetFetch request]
    ++ match net request with
       | Resolved response =>
           if (status response =? 200)%nat
           then CachePut DYNAMIC_CACHE request response
                  :: CachesOpen DYNAMIC_CACHE :: CacheKeys DYNAMIC_CACHE
                  :: map (CacheDelete DYNAMIC_CACHE)
                       (doomed MAX_DYNAMIC_CACHE_SIZE
                          (Store.entry_put
                             (Store.entries (caches w) DYNAMIC_CACHE)
                             request response))
           else []
       | Rejected => [CacheMatch DYNAMIC_CACHE request]
       end.
Proof.
  apply calls_of. rewrite networkFirst_run.
  destruct (net request) as [response|]; [|reflexivity].
  destruct (status response =? 200)%nat; simpl; [|reflexivity].
  rewrite limitCacheSize_run. simpl.
  rewrite entries_update by apply has_open. rewrite entries_open.
  now rewrite <- app_assoc.
Qed.

End StrategyEffects.

(* ================================================================== *)
(** * networkFirst with the network down, and after a success *)

(** X3. The network is down and the dynamic cache holds an entry for the
    request: [networkFirst] answers with that entry.  It asked the network
    once, wrote nothing, and the store is as it was. *)
Theorem networkFirst_falls_back_to_cache (net : Network) (request : Request)
  (hit : Response) (w : World) :
  net request = Rejected ->
  Store.stored (caches w) DYNAMIC_CACHE request = Some hit ->
  fst (networkFirst net request w) = Some hit
  /\ store_after (networkFirst net request) w = caches w
  /\ calls (networkFirst net request) w
     = [CachesOpen DYNAMIC_CACHE; NetFetch request;
        CacheMatch DYNAMIC_CACHE request].
Proof.
  intros Hnet Hhit. split; [|split].
  - now rewrite networkFirst_run, Hnet, Hhit.
  - unfold store_after. rewrite networkFirst_run, Hnet. simpl.
    apply open_present. eapply stored_has; eassumption.
  - now rewrite networkFirst_calls, Hnet.
Qed.

Lemma networkFirst_falls_back_to_cache_witness :
  let visited :=
    snd (networkFirst (network_answers (ok "widget")) (get "/products/widget")
           empty_world) in
  fst (networkFirst network_down (get "/products/widget") visited)
    = Some (ok "widget")
  /\ store_after (networkFirst network_down (get "/products/widget")) visited
     = caches visited
  /\ calls (networkFirst network_down (get "/products/widget")) visited
     = [CachesOpen DYNAMIC_CACHE; NetFetch (get "/products/widget");
        CacheMatch DYNAMIC_CACHE (get "/products/widget")].
Proof.
  apply (@networkFirst_falls_back_to_cache network_down (get "/products/widget")
           (ok "widget")); reflexivity.
Defined.



(* ================================================================== *)
(** * cacheFirst after a success, and what stays in the static cache *)

(** X5. An asset missing from the static cache and answered with status
    200 is served from the cache from then on: the next [cacheFirst] on the
    same request answers with that response whatever the network would
    say, and only opens the cache and looks the request up. *)
Theorem cacheFirst_round_trip (net later : Network) (request : Request)
  (response : Response) (w : World) :
  Store.stored (caches w) STATIC_CACHE request = None ->
  net request = Resolved response ->
  status response = 200 ->
  let stocked := snd (cacheFirst net request w) in
  fst (cacheFirst later request stocked) = Some response
  /\ calls (cacheFirst later request) stocked
     = [CachesOpen STATIC_CACHE; CacheMatch STATIC_CACHE request].
Proof.
  intros Hmiss Hnet Hok stocked.
  destruct (cacheFirst_miss_answered net request w Hnet Hmiss) as (_ & _ & Hstored & _).
  specialize (Hstored Hok). unfold store_after in Hstored. fold stocked in Hstored.
  split.
  - now rewrite cacheFirst_run, Hstored.
  - now rewrite cacheFirst_calls, Hstored.
Qed.

Lemma cacheFirst_round_trip_witness :
  let stocked :=
    snd (cacheFirst (network_answers (ok "v1")) (get "/assets/app.js")
           empty_world) in
  fst (cacheFirst (network_answers (ok "v2")) (get "/assets/app.js") stocked)
    = Some (ok "v1")
  /\ calls (cacheFirst (network_answers (ok "v2")) (get "/assets/app.js")) stocked
     = [CachesOpen STATIC_CACHE; CacheMatch STATIC_CACHE (get "/assets/app.js")].
Proof.
  apply (@cacheFirst_round_trip (network_answers (ok "v1"))
           (network_answers (ok "v2")) (get "/assets/app.js") (ok "v1")
           empty_world); reflexivity.
Defined.

Lemma cacheFirst_keeps_stored (net : Network) (request other : Request)
  (hit : Response) (w : World) :
  Store.stored (caches w) STATIC_CACHE request = Some hit ->
  Store.stored (store_after (cacheFirst net other) w) STATIC_CACHE request
  = Some hit.
Proof.
  intros Hhit. unfold Store.stored. rewrite cacheFirst_static.
  destruct (Store.stored (caches w) STATIC_CACHE other) eqn:Ho; [exact Hhit|].
  destruct (net other) as [response|]; [|exact Hhit].
  destruct (status response =? 200)%nat; [|exact Hhit].
  rewrite entry_match_put_other; [exact Hhit|].
  intros ->. congruence.
Qed.

(** X6. No fetch event changes what the static cache holds for a request:
    an entry stored there is still the one found after the fetch listener
    has handled any request with any network.  Static entries are neither
    refreshed nor evicted. *)
Theorem on_fetch_keeps_static_entries (net : Network) (request other : Request)
  (hit : Response) (w : World) :
  Store.stored (caches w) STATIC_CACHE request = Some hit ->
  Store.stored (store_after (on_fetch net other) w) STATIC_CACHE request
  = Some hit.
Proof.
  intros Hhit. unfold store_after, on_fetch.
  destruct (negb (method other =? "GET")%string); [exact Hhit|].
  destruct (is_excluded_path (url other)); [exact Hhit|].
  destruct (isStaticAsset (url other));
    [rewrite respondWith_world; now apply cacheFirst_keeps_stored|].
  destruct (isImage (url other));
    [rewrite respondWith_world; now apply cacheFirst_keeps_stored|].
  rewrite respondWith_world. unfold Store.stored.
  fold (store_after (networkFirst net other) w).
  rewrite networkFirst_other by apply static_is_not_dynamic. exact Hhit.
Qed.

Lemma on_fetch_keeps_static_entries_witness :
  let stocked :=
    snd (cacheFirst (network_answers (ok "v1")) (get "/assets/app.js")
           empty_world) in
  Store.stored
    (store_after (on_fetch (network_answers (ok "v2")) (get "/assets/app.js"))
       stocked)
    STATIC_CACHE (get "/assets/app.js")
  = Some (ok "v1").
Proof.
  apply (@on_fetch_keeps_static_entries (network_answers (ok "v2"))
           (get "/assets/app.js") (get "/assets/app.js") (ok "v1")).
  reflexivity.
Defined.

(** X7. Each strategy writes to its own cache only: [cacheFirst] leaves
    the entries of every cache but the static one as they were, and
    [networkFirst], eviction included, those of every cache but the
    dynamic one. *)
Theorem strategies_keep_to_their_cache (net : Network) (request : Request)
  (w : World) (name : string) :
  (name <> STATIC_CACHE ->
   Store.entries (store_after (cacheFirst net request) w) name
   = Store.entries (caches w) name)
  /\ (name <> DYNAMIC_CACHE ->
      Store.entries (store_after (networkFirst net request) w) name
      = Store.entries (caches w) name).
Proof. split; [apply cacheFirst_other | apply networkFirst_other]. Qed.

(* ================================================================== *)
(** * The fetch listener and the network *)

Section FetchCalls.

Lemma calls_ret {A} (a : A) (w : World) : calls (ret a) w = [].
Proof. apply calls_of. simpl. now rewrite app_nil_r. Qed.

Lemma calls_respondWith (strategy : M (option Response)) (w : World) :
  calls (respondWith strategy) w = calls strategy w.
Proof. unfold calls. now rewrite respondWith_world. Qed.

Lemma no_fetch_among_deletes (name : string) (ks : list Request) :
  filter is_network_call (map (CacheDelete name) ks) = [].
Proof. induction ks as [|k ks IH]; simpl; [reflexivity | exact IH]. Qed.

Lemma cacheFirst_network_calls (net : Network) (request : Request) (w : World) :
  filter is_network_call (calls (cacheFirst net request) w)
  = match Store.stored (caches w) STATIC_CACHE request with
    | Some _ => []
    | None => [NetFetch request]
    end.
Proof.
  rewrite cacheFirst_calls.
  destruct (Store.stored (caches w) STATIC_CACHE request); [reflexivity|].
  destruct (net request) as [response|]; [|reflexivity].
  now destruct (status response =? 200)%nat.
Qed.

Lemma networkFirst_network_calls (net : Network) (request : Request) (w : World) :
  filter is_network_call (calls (networkFirst net request) w)
  = [NetFetch request].
Proof.
  rewrite networkFirst_calls.
  destruct (net request) as [response|]; [|reflexivity].
  destruct (status response =? 200)%nat; [|reflexivity].
  simpl. now rewrite no_fetch_among_deletes.
Qed.

End FetchCalls.

(** X8. A cacheable request that is no asset is always answered with a
    response: the promise the listener hands to [respondWith] settles to
    the network's response, to the cached one or to the offline page, and
    never to [undefined]. *)
Theorem on_fetch_page_always_answered (net : Network) (request : Request)
  (w : World) :
  cacheable request ->
  is_asset request = false ->
  exists response, fst (on_fetch net request w) = RespondWith (Some response).
Proof.
  intros [Hget Hfree] Hpage. unfold is_asset in Hpage.
  apply orb_false_iff in Hpage as [Hs Hi].
  unfold on_fetch. rewrite Hget, Hfree, Hs, Hi. simpl.
  rewrite respondWith_answer, networkFirst_run.
  destruct (net request) as [response|].
  - exists response. now destruct (status response =? 200)%nat.
  - destruct (Store.stored (caches w) DYNAMIC_CACHE request) as [hit|];
      eexists; reflexivity.
Qed.

Lemma on_fetch_page_always_answered_witness :
  exists response,
    fst (on_fetch network_down (get "/collections/all") empty_world)
    = RespondWith (Some response).
Proof.
  apply on_fetch_page_always_answered; [split|]; reflexivity.
Defined.

(** X9. Handling one fetch event, the worker asks the network at most
    once, and then for the very request of the event: the network calls in
    its trace are none or the single fetch of that request. *)
Theorem on_fetch_asks_network_at_most_once (net : Network) (request : Request)
  (w : World) :
  filter is_network_call (calls (on_fetch net request) w) = []
  \/ filter is_network_call (calls (on_fetch net request) w)
     = [NetFetch request].
Proof.
  unfold on_fetch.
  destruct (negb (method request =? "GET")%string);
    [left; now rewrite calls_ret|].
  destruct (is_excluded_path (url request)); [left; now rewrite calls_ret|].
  destruct (isStaticAsset (url request)).
  { rewrite calls_respondWith, cacheFirst_network_calls.
    destruct (Store.stored (caches w) STATIC_CACHE request); auto. }
  destruct (isImage (url request)).
  { rewrite calls_respondWith, cacheFirst_network_calls.
    destruct (Store.stored (caches w) STATIC_CACHE request); auto. }
  right. now rewrite calls_respondWith, networkFirst_network_calls.
Qed.

(* ================================================================== *)
(** * Install and activate, once and again *)

Section Lifecycle.

Lemma on_install_run (w : World) :
  snd (on_install w)
  = mkWorld (Store.open (caches w) STATIC_CACHE)
            (trace w ++ [CachesOpen STATIC_CACHE; SkipWaiting]).
Proof.
  unfold on_install, Api.caches_open, Api.skipWaiting.
  unfold bind, ret, emit, get_store, set_store. simpl.
  now rewrite <- app_assoc.
Qed.

Lemma open_again (st : CacheStorage) (name : string) :
  Store.open (Store.open st name) name = Store.open st name.
Proof. apply open_present, has_open. Qed.

Lemma no_old_cache_left (st : CacheStorage) :
  filter is_old_cache
    (Store.names (filter (fun p => negb (is_old_cache (fst p))) st))
  = [].
Proof.
  apply filter_none. intros name Hin. unfold Store.names in Hin.
  apply in_map_iff in Hin as (p & <- & Hp). apply filter_In in Hp as [_ Hp].
  now apply negb_true_iff in Hp.
Qed.

End Lifecycle.

(** X10. The install listener stores nothing: it makes sure the static
    cache exists, leaves the entries of every cache as they were, and asks
    the network for nothing; its calls are opening the static cache and
    skipWaiting.  Installing again leaves the store of the first install. *)
Theorem on_install_prepares_static_cache (w : World) :
  let after := store_after on_install w in
  Store.has after STATIC_CACHE = true
  /\ (forall name, Store.entries after name = Store.entries (caches w) name)
  /\ calls on_install w = [CachesOpen STATIC_CACHE; SkipWaiting]
  /\ store_after on_install (snd (on_install w)) = after.
Proof.
  intros after. unfold after, store_after. rewrite !on_install_run. simpl.
  split; [apply has_open | split; [|split]].
  - intros name. apply entries_open.
  - apply calls_of. now rewrite on_install_run.
  - apply open_again.
Qed.

(** X11. Activating again deletes nothing: after one activation a second
    one leaves the store as it is, and its calls are listing the caches and
    claiming the clients, with no deletion between them. *)
Theorem on_activate_twice (w : World) :
  let once := snd (on_activate w) in
  store_after on_activate once = caches once
  /\ calls on_activate once = [CachesKeys; ClientsClaim].
Proof.
  intros once.
  assert (Honce : caches once
                  = filter (fun p => negb (is_old_cache (fst p))) (caches w)).
  { unfold once. now rewrite on_activate_run. }
  unfold store_after. split.
  - rewrite on_activate_run. simpl. rewrite Honce.
    rewrite filter_twice. apply filter_ext. intros p.
    now destruct (is_old_cache (fst p)).
  - apply calls_of. rewrite on_activate_run. simpl.
    now rewrite Honce, no_old_cache_left.
Qed.

(* ================================================================== *)
(** * What every listener keeps true of the store *)

Section Invariant.

Lemma kept_well_empty : kept_well [].
Proof.
  unfold kept_well. simpl. repeat split; try easy.
  constructor.
Qed.

(** One step of the store: no new name but the two current ones, distinct
    keys, every entry an old one or well placed. *)
Lemma kept_well_step (st st' : CacheStorage) :
  kept_well st ->
  (forall name, In name (Store.names st') ->
     In name (Store.names st) \/ name = STATIC_CACHE \/ name = DYNAMIC_CACHE) ->
  (forall name, Store.distinct_keys (Store.entries st' name)) ->
  (forall name e, In e (Store.entries st' name) ->
     In e (Store.entries st name) \/ well_placed name e) ->
  kept_well st'.
Proof.
  intros (Hnames & _ & Hplaced) Hn Hd He.
  split; [|split]; try assumption.
  - intros name Hin. destruct (Hn name Hin) as [H|H]; [now apply Hnames | exact H].
  - intros name e Hin. destruct (He name e Hin) as [H|H]; [now apply Hplaced | exact H].
Qed.

(** A store with the same entries under every name. *)
Lemma kept_well_same (st st' : CacheStorage) :
  kept_well st ->
  (forall name, In name (Store.names st') ->
     In name (Store.names st) \/ name = STATIC_CACHE \/ name = DYNAMIC_CACHE) ->
  (forall name, Store.entries st' name = Store.entries st name) ->
  kept_well st'.
Proof.
  intros Hw Hn He.
  apply kept_well_step with (st := st); [exact Hw | exact Hn | |].
  - intros name. rewrite He. apply Hw.
  - intros name e. rewrite He. now left.
Qed.

Lemma kept_well_open (st : CacheStorage) (name : string) :
  name = STATIC_CACHE \/ name = DYNAMIC_CACHE ->
  kept_well st -> kept_well (Store.open st name).
Proof.
  intros Hname Hw. apply kept_well_same with (st := st); [exact Hw | |].
  - intros other Hin. apply names_open in Hin as [H| ->]; auto.
  - intros other. apply entries_open.
Qed.

Lemma kept_well_filter (keep : string -> bool) (st : CacheStorage) :
  kept_well st -> kept_well (filter (fun p => keep (fst p)) st).
Proof.
  intros Hw. apply kept_well_step with (st := st); [exact Hw | | |].
  - intros name Hin. left. unfold Store.names in *.
    apply in_map_iff in Hin as (p & <- & Hp). apply filter_In in Hp as [Hp _].
    now apply in_map.
  - intros name. rewrite entries_filter.
    destruct (keep name); [apply Hw | constructor].
  - intros name e. rewrite entries_filter.
    destruct (keep name); [now left | intros []].
Qed.

Lemma cacheFirst_keeps_well (net : Network) (request : Request) (w : World) :
  cacheable request -> is_asset request = true ->
  kept_well (caches w) ->
  kept_well (store_after (cacheFirst net request) w).
Proof.
  intros Hc Ha Hw.
  apply kept_well_step with (st := caches w); [exact Hw | | |].
  - intros name Hin. apply cacheFirst_names in Hin. tauto.
  - intros name. destruct (String.eqb_spec name STATIC_CACHE) as [->|Hne].
    + rewrite cacheFirst_static.
      destruct (Store.stored _ _ _); [apply Hw|].
      destruct (net request) as [response|]; [|apply Hw].
      destruct (status response =? 200)%nat; [|apply Hw].
      apply put_keeps_distinct, Hw.
    + rewrite cacheFirst_other by assumption. apply Hw.
  - intros name e. destruct (String.eqb_spec name STATIC_CACHE) as [->|Hne].
    + rewrite cacheFirst_static.
      destruct (Store.stored _ _ _); [now left|].
      destruct (net request) as [response|]; [|now left].
      destruct (Nat.eqb_spec (status response) 200) as [Hok|]; [|now left].
      intros Hin. apply in_put in Hin as [Hin| ->]; [now left|].
      right. unfold well_placed. simpl.
      split; [exact Hc | split; [exact Hok | split]].
      * intros _. exact Ha.
      * intros E. now elim static_is_not_dynamic.
    + rewrite cacheFirst_other by assumption. now left.
Qed.

Lemma networkFirst_keeps_well (net : Network) (request : Request) (w : World) :
  cacheable request -> is_asset request = false ->
  kept_well (caches w) ->
  kept_well (store_after (networkFirst net request) w).
Proof.
  intros Hc Ha Hw.
  apply kept_well_step with (st := caches w); [exact Hw | | |].
  - intros name Hin. apply networkFirst_names in Hin. tauto.
  - intros name. destruct (String.eqb_spec name DYNAMIC_CACHE) as [->|Hne].
    + apply networkFirst_keeps_distinct, Hw.
    + rewrite networkFirst_other by assumption. apply Hw.
  - intros name e. destruct (String.eqb_spec name DYNAMIC_CACHE) as [->|Hne].
    + rewrite networkFirst_dynamic.
      destruct (net request) as [response|]; [|now left].
      destruct (Nat.eqb_spec (status response) 200) as [Hok|]; [|now left].
      intros Hin. apply in_trim, in_put in Hin as [Hin| ->]; [now left|].
      right. unfold well_placed. simpl.
      split; [exact Hc | split; [exact Hok | split]].
      * intros E. symmetry in E. now elim static_is_not_dynamic.
      * intros _. exact Ha.
    + rewrite networkFirst_other by assumption. now left.
Qed.

Lemma on_fetch_keeps_well (net : Network) (request : Request) (w : World) :
  kept_well (caches w) ->
  kept_well (store_after (on_fetch net request) w).
Proof.
  intros Hw. unfold store_after, on_fetch.
  destruct (String.eqb_spec (method request) "GET") as [Hget|]; simpl;
    [|exact Hw].
  destruct (is_excluded_path (url request)) eqn:Hfree; [exact Hw|].
  assert (Hc : cacheable request) by now split.
  destruct (isStaticAsset (url request)) eqn:Hs.
  { rewrite respondWith_world. apply cacheFirst_keeps_well; try assumption.
    unfold is_asset. now rewrite Hs. }
  destruct (isImage (url request)) eqn:Hi.
  { rewrite respondWith_world. apply cacheFirst_keeps_well; try assumption.
    unfold is_asset. now rewrite Hs, Hi. }
  rewrite respondWith_world. apply networkFirst_keeps_well; try assumption.
  unfold is_asset. now rewrite Hs, Hi.
Qed.

Lemma on_message_store (action : string) (w : World) :
  store_after (on_message action) w
  = if (action =? "clearCache")%string then [] else caches w.
Proof.
  unfold store_after. destruct (String.eqb_spec action "clearCache") as [->|Hne].
  - now rewrite clearCache_run.
  - unfold on_message. apply String.eqb_neq in Hne. rewrite Hne.
    now destruct (action =? "skipWaiting")%string.
Qed.

Lemma dispatch_keeps_well (e : WorkerEvent) (w : World) :
  kept_well (caches w) -> kept_well (caches (snd (dispatch e w))).
Proof.
  intros Hw. destruct e as [| |net request|action]; cbn [dispatch].
  - rewrite on_install_run. cbn [caches]. apply kept_well_open; auto.
  - rewrite on_activate_run. cbn [caches].
    now apply (kept_well_filter (fun n => negb (is_old_cache n))).
  - rewrite bind_run. unfold ret. cbn [snd]. now apply on_fetch_keeps_well.
  - fold (store_after (on_message action) w). rewrite on_message_store.
    destruct (action =? "clearCache")%string; [apply kept_well_empty | exact Hw].
Qed.

Lemma deliver_keeps_well (events : list WorkerEvent) : forall w,
  kept_well (caches w) -> kept_well (caches (deliver events w)).
Proof.
  induction events as [|e events IH]; intros w Hw; simpl; [exact Hw|].
  apply IH. now apply dispatch_keeps_well.
Qed.

End Invariant.

Section Reachable.

Lemma entry_has_name (st : CacheStorage) (name : string)
  (e : Request * Response) :
  In e (Store.entries st name) -> In name (Store.names st).
Proof.
  intros Hin. apply has_names. destruct (Store.has st name) eqn:E; [reflexivity|].
  rewrite (entries_has _ _ E) in Hin. destruct Hin.
Qed.

Lemma cacheable_spec (request : Request) :
  cacheable request <->
  method request = "GET"
  /\ (forall sub, In sub excluded_substrings ->
                  ~ Js.contains (pathname (url request)) sub).
Proof.
  unfold cacheable. split; intros [Hget H]; (split; [exact Hget|]).
  - intros sub Hin Hc.
    assert (E : is_excluded_path (url request) = true)
      by (apply is_excluded_path_contains; now exists sub).
    congruence.
  - now apply not_excluded.
Qed.

Lemma is_asset_spec (request : Request) :
  is_asset request = true <->
  has_extension (pathname (url request)) static_extensions
  \/ has_extension (pathname (url request)) image_extensions.
Proof.
  unfold is_asset. now rewrite orb_true_iff, isStaticAsset_spec, isImage_spec.
Qed.

End Reachable.

(** X12. Whatever events the worker handles, it stores only GET requests
    whose path contains none of /admin, /checkout, /cart/add, /cart/update,
    and only responses of status 200: from a store of which this is true
    (and that is kept well otherwise) every entry of every cache has these
    properties after any sequence of install, activate, fetch and message
    events. *)
Theorem deliver_stores_only_cacheable_200 (events : list WorkerEvent)
  (w : World) (name : string) (request : Request) (response : Response) :
  kept_well (caches w) ->
  In (request, response) (Store.entries (caches (deliver events w)) name) ->
  method request = "GET"
  /\ (forall sub, In sub excluded_substrings ->
                  ~ Js.contains (pathname (url request)) sub)
  /\ status response = 200.
Proof.
  intros Hw Hin.
  destruct (deliver_keeps_well events w Hw) as (_ & _ & Hplaced).
  destruct (Hplaced name _ Hin) as (Hc & Hok & _).
  apply cacheable_spec in Hc as [Hget Hfree]. auto.
Qed.

Lemma deliver_stores_only_cacheable_200_witness :
  method (get "/products/widget") = "GET"
  /\ (forall sub, In sub excluded_substrings ->
                  ~ Js.contains (pathname (url (get "/products/widget"))) sub)
  /\ status (ok "widget") = 200.
Proof.
  apply (@deliver_stores_only_cacheable_200 first_visit empty_world
           DYNAMIC_CACHE (get "/products/widget") (ok "widget")
           kept_well_empty).
  vm_compute. left. reflexivity.
Defined.

(** X13. Assets and pages never mix: after any sequence of events from a
    store kept well, an entry is in the static cache with a path that has
    a static or an image extension, or in the dynamic cache with a path
    that has neither. *)
Theorem deliver_sorts_assets_and_pages (events : list WorkerEvent)
  (w : World) (name : string) (request : Request) (response : Response) :
  kept_well (caches w) ->
  In (request, response) (Store.entries (caches (deliver events w)) name) ->
  (name = STATIC_CACHE
   /\ (has_extension (pathname (url request)) static_extensions
       \/ has_extension (pathname (url request)) image_extensions))
  \/ (name = DYNAMIC_CACHE
      /\ ~ has_extension (pathname (url request)) static_extensions
      /\ ~ has_extension (pathname (url request)) image_extensions).
Proof.
  intros Hw Hin.
  destruct (deliver_keeps_well events w Hw) as (Hnames & _ & Hplaced).
  destruct (Hplaced name _ Hin) as (_ & _ & Hs & Hd). simpl in Hs, Hd.
  destruct (Hnames name (entry_has_name _ _ _ Hin)) as [E|E].
  - left. split; [exact E|]. now apply is_asset_spec, Hs.
  - right. split; [exact E|]. specialize (Hd E).
    split; intros H; assert (Ha : is_asset request = true)
      by (apply is_asset_spec; auto); congruence.
Qed.

Lemma deliver_sorts_assets_and_pages_witness :
  (STATIC_CACHE = STATIC_CACHE
   /\ (has_extension (pathname (url (get "/assets/app.css"))) static_extensions
       \/ has_extension (pathname (url (get "/assets/app.css"))) image_extensions))
  \/ (STATIC_CACHE = DYNAMIC_CACHE
      /\ ~ has_extension (pathname (url (get "/assets/app.css"))) static_extensions
      /\ ~ has_extension (pathname (url (get "/assets/app.css"))) image_extensions).
Proof.
  apply (@deliver_sorts_assets_and_pages first_visit empty_world
           STATIC_CACHE (get "/assets/app.css") (ok "body { margin: 0 }")
           kept_well_empty).
  vm_compute. left. reflexivity.
Defined.

(** X14. The shape of the store is kept along every run of the worker:
    after any sequence of install, activate, fetch and message events from
    a store kept well, no cache holds two entries of one request, and only
    the two current caches exist. *)
Theorem deliver_keeps_keys_distinct (events : list WorkerEvent) (w : World) :
  kept_well (caches w) ->
  let st := caches (deliver events w) in
  (forall name, Store.distinct_keys (Store.entries st name))
  /\ (forall name, In name (Store.names st) ->
                   name = STATIC_CACHE \/ name = DYNAMIC_CACHE).
Proof.
  intros Hw st.
  destruct (deliver_keeps_well events w Hw) as (Hnames & Hd & _).
  auto.
Qed.

Lemma deliver_keeps_keys_distinct_witness :
  let st := caches (deliver first_visit empty_world) in
  (forall name, Store.distinct_keys (Store.entries st name))
  /\ (forall name, In name (Store.names st) ->
                   name = STATIC_CACHE \/ name = DYNAMIC_CACHE).
Proof.
  apply (@deliver_keeps_keys_distinct first_visit empty_world
           kept_well_empty).
Defined.

(** The first visit leaves the stylesheet in the static cache and the
    product page in the dynamic one; the post, the checkout page and the
    page answered with 404 are in neither. *)
Example first_visit_store :
  caches (deliver first_visit empty_world)
  = [(STATIC_CACHE, [(get "/assets/app.css", ok "body { margin: 0 }")]);
     (DYNAMIC_CACHE, [(get "/products/widget", ok "widget")])].
Proof. reflexivity. Qed.

(* ================================================================== *)
(** * limitCacheSize after a completed write *)

(** X15. [limitCacheSize] on a cache with distinct keys that holds more
    than [maxSize] entries deletes exactly the oldest ones in excess: what
    is left is the newest [maxSize] entries in their order, and the cache
    before is the deleted front followed by what is left. *)
Theorem limitCacheSize_evicts_oldest (cacheName : string) (maxSize : nat)
  (w : World) :
  Store.distinct_keys (Store.entries (caches w) cacheName) ->
  maxSize < List.length (Store.entries (caches w) cacheName) ->
  let before := Store.entries (caches w) cacheName in
  let after :=
    Store.entries (store_after (limitCacheSize cacheName maxSize) w) cacheName in
  after = skipn (List.length before - maxSize) before
  /\ before = firstn (List.length before - maxSize) before ++ after
  /\ List.length after = maxSize
  /\ calls (limitCacheSize cacheName maxSize) w
     = CachesOpen cacheName :: CacheKeys cacheName
         :: map (CacheDelete cacheName)
              (firstn (List.length before - maxSize) (Store.entry_keys before)).
Proof.
  intros Hnd Hover before after.
  assert (Hafter : after = skipn (List.length before - maxSize) before).
  { unfold after, store_after. rewrite limitCacheSize_entries.
    now apply trim_distinct. }
  rewrite Hafter. split; [reflexivity | split; [|split]].
  - symmetry. apply firstn_skipn.
  - unfold before. rewrite length_skipn. lia.
  - rewrite limitCacheSize_calls. unfold doomed, slice, before.
    destruct (Nat.ltb_spec maxSize
                (List.length (Store.entries (caches w) cacheName))); [|lia].
    simpl. now rewrite Nat.sub_0_r.
Qed.

Lemma limitCacheSize_evicts_oldest_witness :
  let w := serve_pages (product_views 5) empty_world in
  let before := Store.entries (caches w) DYNAMIC_CACHE in
  let after :=
    Store.entries (store_after (limitCacheSize DYNAMIC_CACHE 3) w) DYNAMIC_CACHE in
  after = skipn (List.length before - 3) before
  /\ before = firstn (List.length before - 3) before ++ after
  /\ List.length after = 3
  /\ calls (limitCacheSize DYNAMIC_CACHE 3) w
     = CachesOpen DYNAMIC_CACHE :: CacheKeys DYNAMIC_CACHE
         :: map (CacheDelete DYNAMIC_CACHE)
              (firstn (List.length before - 3) (Store.entry_keys before)).
Proof.
  apply (@limitCacheSize_evicts_oldest DYNAMIC_CACHE 3
           (serve_pages (product_views 5) empty_world)).
  - apply (@serve_pages_distinct (product_views 5) empty_world). constructor.
  - vm_compute. repeat constructor.
Defined.

(* ================================================================== *)
(** * networkFirst when the put lands last *)

Section PutLast.

Variable net : Network.
Variable request : Request.
Variable w : World.

Lemma limitCacheSize_has (cacheName : string) (maxSize : nat) (w0 : World) :
  Store.has (caches (snd (limitCacheSize cacheName maxSize w0))) cacheName = true.
Proof.
  rewrite limitCacheSize_run. simpl.
  destruct (maxSize <? _)%nat; [rewrite has_names, names_update, <- has_names|];
    apply has_open.
Qed.

(** Every path of [networkFirst_put_last]. *)
Lemma networkFirst_put_last_run :
  let opened := Store.open (caches w) DYNAMIC_CACHE in
  let asked := [CachesOpen DYNAMIC_CACHE; NetFetch request] in
  networkFirst_put_last net request w =
  match net request with
  | Resolved response =>
      if (status response =? 200)%nat then
        let trimmed :=
          snd (limitCacheSize DYNAMIC_CACHE MAX_DYNAMIC_CACHE_SIZE
                 (mkWorld opened (trace w ++ asked))) in
        (Some response,
         mkWorld
           (Store.update (caches trimmed) DYNAMIC_CACHE
              (fun c => Store.entry_put c request response))
           (trace trimmed ++ [CachePut DYNAMIC_CACHE request response]))
      else (Some response, mkWorld opened (trace w ++ asked))
  | Rejected =>
      (match Store.stored (caches w) DYNAMIC_CACHE request with
       | Some hit => Some hit
       | None => Some offline_page_response
       end,
       mkWorld opened (trace w ++ asked ++ [CacheMatch DYNAMIC_CACHE request]))
  end.
Proof.
  intros opened asked. unfold networkFirst_put_last, Api.caches_open, Api.fetch.
  unfold Api.cache_put, Api.cache_match, clone.
  unfold bind, ret, emit, get_store, set_store.
  simpl. fold opened.
  destruct (net request) as [response|].
  - destruct (status response =? 200)%nat.
    + simpl. rewrite <- !app_assoc. simpl.
      now destruct (limitCacheSize _ _ _) as [[] w'].
    + simpl. now rewrite <- !app_assoc.
  - simpl. unfold opened at 1.
    rewrite stored_open, <- !app_assoc. simpl.
    now destruct (Store.stored (caches w) DYNAMIC_CACHE request).
Qed.

(** The dynamic cache when the put lands last: the cache as it was is
    trimmed, then the response is put. *)
Lemma networkFirst_put_last_dynamic :
  Store.entries (store_after (networkFirst_put_last net request) w) DYNAMIC_CACHE
  = match net request with
    | Resolved response =>
        if (status response =? 200)%nat
        then Store.entry_put
               (trim MAX_DYNAMIC_CACHE_SIZE
                  (Store.entries (caches w) DYNAMIC_CACHE))
               request response
        else Store.entries (caches w) DYNAMIC_CACHE
    | Rejected => Store.entries (caches w) DYNAMIC_CACHE
    end.
Proof.
  unfold store_after. rewrite networkFirst_put_last_run.
  destruct (net request) as [response|]; [|apply entries_open].
  destruct (status response =? 200)%nat; simpl; [|apply entries_open].
  rewrite entries_update by apply limitCacheSize_has.
  rewrite limitCacheSize_entries. simpl. now rewrite entries_open.
Qed.


Lemma put_length_fresh (c : Cache) (response : Response) :
  ~ In request (Store.entry_keys c) ->
  List.length (Store.entry_put c request response) = S (List.length c).
Proof.
  intros Hfresh. unfold Store.entry_put, Store.entry_delete.
  rewrite filter_every, length_app; [simpl; lia|].
  intros e He. apply negb_true_iff.
  destruct (same_request (fst e) request) eqn:E; [|reflexivity].
  apply same_request_true in E. elim Hfresh. rewrite <- E.
  unfold Store.entry_keys. now apply in_map.
Qed.

(** From a full dynamic cache the put-last run ends one over the bound. *)
Lemma networkFirst_put_last_over_the_bound (response : Response) :
  net request = Resolved response ->
  status response = 200 ->
  Store.distinct_keys (Store.entries (caches w) DYNAMIC_CACHE) ->
  MAX_DYNAMIC_CACHE_SIZE <= List.length (Store.entries (caches w) DYNAMIC_CACHE) ->
  ~ In request (Store.entry_keys (Store.entries (caches w) DYNAMIC_CACHE)) ->
  List.length
    (Store.entries (store_after (networkFirst_put_last net request) w)
       DYNAMIC_CACHE)
  = S MAX_DYNAMIC_CACHE_SIZE.
Proof.
  intros Hnet Hok Hnd Hfull Hfresh.
  rewrite networkFirst_put_last_dynamic, Hnet.
  apply Nat.eqb_eq in Hok. rewrite Hok.
  set (c := Store.entries (caches w) DYNAMIC_CACHE) in *.
  assert (Hfresh' : ~ In request (Store.entry_keys (trim MAX_DYNAMIC_CACHE_SIZE c))).
  { intros Hin. apply Hfresh. unfold Store.entry_keys in *.
    apply in_map_iff in Hin as (e & <- & He). apply in_trim in He.
    now apply in_map. }
  rewrite put_length_fresh by exact Hfresh'. f_equal.
  destruct (Nat.eq_dec (List.length c) MAX_DYNAMIC_CACHE_SIZE) as [E|E].
  - rewrite trim_within by lia. exact E.
  - rewrite trim_distinct by (assumption || lia). rewrite length_skipn. lia.
Qed.

End PutLast.

